(** * Tic-tac-toe with a minimax opponent: the game core of [src/main.cpp]

    A shallow embedding of the rule engine ([CheckLine], [CheckWin]), the
    exhaustive search ([MiniMax], [FindBestMove]) and the part of [App] that
    changes the game state ([Reset], [HandlePlayerTurn], [HandleAiTurn]),
    followed by the properties stated about them.

    Conventions.
    - [int] values are integers of [Z]; where the operands of an addition are
      not bounded by a preceding guard the 32-bit two's complement wrap-around
      is written out ([int_add]).
    - [Board] is [std::array<EPiece, boardWidth * boardWidth>]: a list of
      pieces, of length [boardWidth * boardWidth] when well formed
      ([board_wf]).  [board.at(i)] is bounds checked and throws
      [std::out_of_range]; that is the [Raise out_of_range] outcome.
    - Functions taking [const Board&] read the board; [MiniMax] takes
      [Board&] and is a state transformer on the board; the member
      functions of [App] are state transformers on the members.
    - Recursion that the source bounds only by the data is given a [fuel]
      argument; the entry points fix a sufficient amount and the totality
      lemmas show that it is never exhausted.
    - Drawing is not modelled, except for [DrawWinningLine], which reads
      the board; the [float] timers are not modelled either: where a timer
      gates a step, the outcome of the test is an input. *)

From Stdlib Require Import ZArith Lia Bool String.
From stdpp Require Import base list.

Local Open Scope Z_scope.

(** * Part I: the program *)

(** ** Pieces, constants and vectors *)

Module EPiece.
Inductive t : Set := None | Cross | Cricle.

Definition eqb (a b : t) : bool :=
  match a, b with
  | None, None | Cross, Cross | Cricle, Cricle => true
  | _, _ => false
  end.
End EPiece.

Definition boardWidth : Z := 3.
Definition piecesToWin : Z := 3.
Definition playerStart : bool := true.
Definition useAi : bool := true.

Definition playerPiece : EPiece.t :=
  if playerStart then EPiece.Cross else EPiece.Cricle.
Definition computerPiece : EPiece.t :=
  if playerStart then EPiece.Cricle else EPiece.Cross.

(** [int] arithmetic: the value of a 32-bit signed addition, the sum itself
    when it is representable and the sum reduced modulo [2^32] otherwise
    ([int_wrap_mod] below gives the closed form). *)
Definition int_half : Z := 2147483648.
Definition int_modulus : Z := 4294967296.
Definition int_range (z : Z) : Prop := - int_half <= z < int_half.
Definition int_wrap (z : Z) : Z :=
  if (- int_half <=? z) && (z <? int_half) then z
  else (z + int_half) mod int_modulus - int_half.
Definition int_add (a b : Z) : Z := int_wrap (a + b).

Module olc.
(** [olc::vi2d], a pair of [int32_t] with component-wise [operator+]. *)
Record vi2d : Set := Vi2d { x : Z; y : Z }.

Definition add (a b : vi2d) : vi2d :=
  {| x := int_add (x a) (x b); y := int_add (y a) (y b) |}.
End olc.

Record WinningMove : Set := MkWinningMove {
  piece : EPiece.t;
  position : olc.vi2d;
  direction : olc.vi2d
}.

(** ** Outcomes of a call *)

Inductive exn : Set := out_of_range | future_error.

Inductive result (A : Type) : Type :=
| Ok (a : A)
| Raise (e : exn)
| OutOfFuel.
Arguments Ok {A} a.
Arguments Raise {A} e.
Arguments OutOfFuel {A}.

Definition rbind {A B} (m : result A) (k : A -> result B) : result B :=
  match m with
  | Ok a => k a
  | Raise e => Raise e
  | OutOfFuel => OutOfFuel
  end.

Declare Scope result_scope.
Delimit Scope result_scope with result.
Notation "'let*' v ':=' m 'in' k" := (rbind m (fun v => k))
  (at level 10, v name, m at level 200, k at level 200) : result_scope.

(** Computations on a mutable object of type [St]: the object at the time
    of a throw is the object the caller is left with. *)
Definition M (St A : Type) : Type := St -> result A * St.

Definition ret {St A} (a : A) : M St A := fun s => (Ok a, s).

Definition bind {St A B} (m : M St A) (k : A -> M St B) : M St B :=
  fun s =>
    match m s with
    | (Ok a, s') => k a s'
    | (Raise e, s') => (Raise e, s')
    | (OutOfFuel, s') => (OutOfFuel, s')
    end.

Definition read {St A} (f : St -> result A) : M St A := fun s => (f s, s).

Definition modify {St} (f : St -> St) : M St unit := fun s => (Ok tt, f s).

Declare Scope state_scope.
Delimit Scope state_scope with state.
Notation "'let*' v ':=' m 'in' k" := (bind m (fun v => k))
  (at level 10, v name, m at level 200, k at level 200) : state_scope.
Notation "m ';;' k" := (bind m (fun _ => k))
  (at level 100, k at level 200, right associativity) : state_scope.

(** ** The board *)

Abbreviation Board := (list EPiece.t).

Definition board_size : Z := boardWidth * boardWidth.

Definition cells : nat := Z.to_nat board_size.

Definition board_wf (b : Board) : Prop := Z.of_nat (length b) = board_size.

Definition in_bounds (i : Z) : bool := (0 <=? i) && (i <? board_size).

(** [board.at(i)] read. *)
Definition at_ (board : Board) (i : Z) : result EPiece.t :=
  if in_bounds i then
    match board !! Z.to_nat i with
    | Some p => Ok p
    | None => Raise out_of_range
    end
  else Raise out_of_range.

Definition get_at (i : Z) : M Board EPiece.t := read (fun b => at_ b i).

(** [board.at(i) = p]. *)
Definition set_at (i : Z) (p : EPiece.t) : M Board unit :=
  fun b =>
    if in_bounds i && (Z.to_nat i <? length b)%nat
    then (Ok tt, <[Z.to_nat i := p]> b)
    else (Raise out_of_range, b).

Definition empty_board : Board := replicate cells EPiece.None.

(** ** Win detection *)

Section WinDetector.
Local Open Scope result_scope.

(** [CheckLine]: the recursion of the source, one unit of [fuel] per call.
    The sum [1 + CheckLine(...)] never exceeds [boardWidth]
    ([CheckLine_rec_total] below), so it is a plain sum. *)
Fixpoint CheckLine_rec (fuel : nat) (board : Board) (expected : EPiece.t)
    (pos searchDirection : olc.vi2d) : result Z :=
  match fuel with
  | O => OutOfFuel
  | S fuel' =>
      if (olc.x pos <? 0) || (olc.x pos >=? boardWidth) then Ok 0
      else if (olc.y pos <? 0) || (olc.y pos >=? boardWidth) then Ok 0
      else
        let* c := at_ board (olc.x pos * boardWidth + olc.y pos) in
        if negb (EPiece.eqb c expected) then Ok 0
        else
          let* n := CheckLine_rec fuel' board expected
                      (olc.add pos searchDirection) searchDirection in
          Ok (1 + n)
  end.

(** A walk leaves the grid after at most [boardWidth] cells. *)
Definition line_fuel : nat := S (Z.to_nat boardWidth).

Definition CheckLine : Board -> EPiece.t -> olc.vi2d -> olc.vi2d -> result Z :=
  CheckLine_rec line_fuel.

(** One direction family of [CheckWin]: the walk from [pos] along [neg]
    and the walk from the next cell along the opposite direction. *)
Definition family_count (board : Board) (placedPiece : EPiece.t)
    (pos neg next pos_dir : olc.vi2d) : result Z :=
  let* a := CheckLine board placedPiece pos neg in
  let* b := CheckLine board placedPiece next pos_dir in
  Ok (a + b).

Definition CheckWin (board : Board) (placedPiecePosition : Z)
    : result (option WinningMove) :=
  let* placedPiece := at_ board placedPiecePosition in
  let pos := olc.Vi2d (Z.quot placedPiecePosition boardWidth)
                      (Z.rem placedPiecePosition boardWidth) in
  let* horizontalPieces :=
    family_count board placedPiece pos (olc.Vi2d (-1) 0)
      (olc.Vi2d (olc.x pos + 1) (olc.y pos)) (olc.Vi2d 1 0) in
  if horizontalPieces >=? piecesToWin then
    Ok (Some (MkWinningMove placedPiece pos (olc.Vi2d (-1) 0)))
  else
  let* verticalPieces :=
    family_count board placedPiece pos (olc.Vi2d 0 (-1))
      (olc.Vi2d (olc.x pos) (olc.y pos + 1)) (olc.Vi2d 0 1) in
  if verticalPieces >=? piecesToWin then
    Ok (Some (MkWinningMove placedPiece pos (olc.Vi2d 0 (-1))))
  else
  let* diag1pieces :=
    family_count board placedPiece pos (olc.Vi2d (-1) (-1))
      (olc.Vi2d (olc.x pos + 1) (olc.y pos + 1)) (olc.Vi2d 1 1) in
  if diag1pieces >=? piecesToWin then
    Ok (Some (MkWinningMove placedPiece pos (olc.Vi2d (-1) (-1))))
  else
  let* diag2pieces :=
    family_count board placedPiece pos (olc.Vi2d (-1) 1)
      (olc.Vi2d (olc.x pos + 1) (olc.y pos - 1)) (olc.Vi2d 1 (-1)) in
  if diag2pieces >=? piecesToWin then
    Ok (Some (MkWinningMove placedPiece pos (olc.Vi2d (-1) 1)))
  else Ok Datatypes.None.
End WinDetector.

(** ** The search *)

Section Search.
Local Open Scope state_scope.

(** [for (int i = from; i < from + n; i++) acc = body(i, acc);] *)
Fixpoint for_loop {St Acc : Type} (n : nat) (i : Z)
    (body : Z -> Acc -> M St Acc) (acc : Acc) : M St Acc :=
  match n with
  | O => ret acc
  | S n' => let* acc' := body i acc in for_loop n' (i + 1) body acc'
  end.

(** The [hasEmpty] scan with its [break]. *)
Fixpoint has_empty_from (n : nat) (i : Z) : M Board bool :=
  match n with
  | O => ret false
  | S n' =>
      let* c := get_at i in
      if EPiece.eqb c EPiece.None then ret true
      else has_empty_from n' (i + 1)
  end.

Fixpoint MiniMax_rec (fuel : nat) (depth placedPiece : Z) (isMax : bool)
    : M Board Z :=
  match fuel with
  | O => fun b => (OutOfFuel, b)
  | S fuel' =>
      let* winner := read (fun b => CheckWin b placedPiece) in
      match winner with
      | Some wm =>
          if EPiece.eqb (piece wm) computerPiece then ret 1 else ret (-1)
      | Datatypes.None =>
          let* hasEmpty := has_empty_from cells 0 in
          if negb hasEmpty then ret 0
          else if isMax then
            for_loop cells 0
              (fun i best =>
                 let* c := get_at i in
                 if EPiece.eqb c EPiece.None then
                   set_at i computerPiece ;;
                   let* v := MiniMax_rec fuel' (int_add depth 1) i
                               (negb isMax) in
                   set_at i EPiece.None ;;
                   ret (Z.max best v)
                 else ret best)
              (-1000)
          else
            for_loop cells 0
              (fun i best =>
                 let* c := get_at i in
                 if EPiece.eqb c EPiece.None then
                   set_at i playerPiece ;;
                   let* v := MiniMax_rec fuel' (int_add depth 1) i
                               (negb isMax) in
                   set_at i EPiece.None ;;
                   ret (Z.min best v)
                 else ret best)
              1000
      end
  end.

(** Every nested call fills one more cell, so the depth of the recursion
    is at most the number of cells plus one. *)
Definition search_fuel : nat := S cells.

Definition MiniMax : Z -> Z -> bool -> M Board Z := MiniMax_rec search_fuel.

(** The loop of [FindBestMove]; the accumulator is [(bestVal, bestMove)]. *)
Definition FindBestMove_body (piece : EPiece.t) (i : Z) (acc : Z * Z)
    : M Board (Z * Z) :=
  let* c := get_at i in
  if EPiece.eqb c EPiece.None then
    set_at i piece ;;
    let* moveVal := MiniMax 0 i false in
    set_at i EPiece.None ;;
    if moveVal >? fst acc then ret (moveVal, i) else ret acc
  else ret acc.

(** [FindBestMove] takes its board by value: the copy it works on is
    dropped when it returns. *)
Definition FindBestMove (board : Board) (piece : EPiece.t) : result Z :=
  match for_loop cells 0 (FindBestMove_body piece) (-1000, -1) board with
  | (Ok acc, _) => Ok (snd acc)
  | (Raise e, _) => Raise e
  | (OutOfFuel, _) => OutOfFuel
  end.
End Search.

(** ** The application state *)

Module App.
(** The members of [App] that the game logic reads or writes.
    [aiNextmMove] is the [std::future<int>]: [None] when it has no shared
    state, otherwise the arguments that [std::async] copied for
    [FindBestMove]; [get()] yields the value of that call. *)
Record t : Type := Mk {
  board : Board;
  placedPieces : Z;
  currentTurn : EPiece.t;
  aiNextmMove : option (Board * EPiece.t);
  bGameEnded : bool;
  winningMove : option WinningMove
}.

Definition set_board (b : Board) (s : t) : t :=
  Mk b (placedPieces s) (currentTurn s) (aiNextmMove s) (bGameEnded s)
     (winningMove s).
Definition set_placedPieces (n : Z) (s : t) : t :=
  Mk (board s) n (currentTurn s) (aiNextmMove s) (bGameEnded s)
     (winningMove s).
Definition set_currentTurn (p : EPiece.t) (s : t) : t :=
  Mk (board s) (placedPieces s) p (aiNextmMove s) (bGameEnded s)
     (winningMove s).
Definition set_aiNextmMove (f : option (Board * EPiece.t)) (s : t) : t :=
  Mk (board s) (placedPieces s) (currentTurn s) f (bGameEnded s)
     (winningMove s).
Definition set_bGameEnded (e : bool) (s : t) : t :=
  Mk (board s) (placedPieces s) (currentTurn s) (aiNextmMove s) e
     (winningMove s).
Definition set_winningMove (w : option WinningMove) (s : t) : t :=
  Mk (board s) (placedPieces s) (currentTurn s) (aiNextmMove s)
     (bGameEnded s) w.

(** A computation on the member [board]. *)
Definition on_board {A} (m : M Board A) : M t A :=
  fun s => let (r, b') := m (board s) in (r, set_board b' s).

(** [currentTurn == EPiece::Cross ? EPiece::Cricle : EPiece::Cross] *)
Definition other_turn (p : EPiece.t) : EPiece.t :=
  if EPiece.eqb p EPiece.Cross then EPiece.Cricle else EPiece.Cross.

Section Members.
Local Open Scope state_scope.

Definition StartAiThink : M t unit :=
  modify (fun s => set_aiNextmMove (Some (board s, computerPiece)) s).

Definition Reset : M t unit :=
  modify (set_winningMove Datatypes.None) ;;
  modify (set_bGameEnded false) ;;
  modify (set_currentTurn EPiece.Cross) ;;
  modify (set_board (replicate cells EPiece.None)) ;;
  modify (set_placedPieces 0) ;;
  let* turn := read (fun s => Ok (currentTurn s)) in
  if useAi && EPiece.eqb turn computerPiece then StartAiThink else ret tt.

(** [thinkElapsed] is the test [aiThinkAccumulate > aiThinkTime] and
    [ready] the test [status != std::future_status::timeout]. *)
Definition HandleAiTurn (thinkElapsed ready : bool) : M t unit :=
  if thinkElapsed then
    let* job := read (fun s => match aiNextmMove s with
                               | Some j => Ok j
                               | Datatypes.None => Raise future_error
                               end) in
    if negb ready then ret tt
    else
      modify (set_aiNextmMove Datatypes.None) ;;
      let* move := read (fun _ => FindBestMove (fst job) (snd job)) in
      if negb (move =? -1) then
        let* c := on_board (get_at move) in
        if EPiece.eqb c EPiece.None then
          modify (fun s => set_placedPieces (int_add (placedPieces s) 1) s) ;;
          on_board (set_at move computerPiece) ;;
          modify (fun s => set_currentTurn (other_turn (currentTurn s)) s) ;;
          let* w := read (fun s => CheckWin (board s) move) in
          modify (set_winningMove w)
        else ret tt
      else ret tt
  else ret tt.

(** [pressed] is [GetMouse(0).bPressed] and [SelectedTile] the value of
    [WindowPosToBoardIdx(GetMousePos())]. *)
Definition HandlePlayerTurn (pressed : bool) (SelectedTile : Z) : M t unit :=
  if pressed then
    let* c := on_board (get_at SelectedTile) in
    if EPiece.eqb c EPiece.None then
      modify (fun s => set_placedPieces (int_add (placedPieces s) 1) s) ;;
      let* turn := read (fun s => Ok (currentTurn s)) in
      on_board (set_at SelectedTile turn) ;;
      modify (fun s => set_currentTurn (other_turn (currentTurn s)) s) ;;
      let* w := read (fun s => CheckWin (board s) SelectedTile) in
      modify (set_winningMove w) ;;
      if useAi then StartAiThink else ret tt
    else ret tt
  else ret tt.
End Members.

(** The state of a default-constructed [App]. *)
Definition initial : t :=
  Mk empty_board 0 EPiece.None Datatypes.None false Datatypes.None.
End App.

(** ** Drawing the winning line and the frame loop *)

Definition tileSize : Z := 32.

Definition int_mul (a b : Z) : Z := int_wrap (a * b).

(** [olcPixelGameEngine.h] is not part of the sources; the products of a
    [vi2d] and a scalar are taken component-wise, like the sum. *)
Definition scale (k : Z) (v : olc.vi2d) : olc.vi2d :=
  olc.Vi2d (int_mul k (olc.x v)) (int_mul k (olc.y v)).

Definition scaled (v : olc.vi2d) (k : Z) : olc.vi2d :=
  olc.Vi2d (int_mul (olc.x v) k) (int_mul (olc.y v) k).

(** [WindowPosToBoardIdx]: [/] on [int] truncates towards zero. *)
Definition WindowPosToBoardIdx (position : olc.vi2d) : Z :=
  let x := Z.quot (olc.x position) tileSize in
  let y := Z.quot (olc.y position) tileSize in
  int_add (int_mul x boardWidth) y.

(** A call [DrawLine(from, to, olc::YELLOW)]. *)
Record DrawLine : Set := MkDrawLine { line_from : olc.vi2d; line_to : olc.vi2d }.

Section Drawing.
Local Open Scope result_scope.

(** The [while (!reachedStart)] loop of [DrawWinningLine], one unit of
    [fuel] per iteration. *)
Fixpoint find_start (fuel : nat) (board : Board) (wm : WinningMove)
    (start : olc.vi2d) : result olc.vi2d :=
  match fuel with
  | O => OutOfFuel
  | S fuel' =>
      let check := olc.add start (direction wm) in
      if (olc.x check <? 0) || (olc.y check <? 0) then Ok start
      else
        let* c := at_ board
                    (int_add (int_mul (olc.x check) boardWidth) (olc.y check)) in
        if negb (EPiece.eqb c (piece wm)) then Ok start
        else find_start fuel' board wm check
  end.

(** [DrawWinningLine]: the calls of [DrawLine] it makes.  The fuel is
    enough for the moves [CheckWin] returns, the only ones it is called
    with. *)
Definition DrawWinningLine (board : Board) (wm : WinningMove)
    : result (list DrawLine) :=
  let* start := find_start line_fuel board wm (position wm) in
  let end_ := olc.add start (scaled (scale (-1) (direction wm)) piecesToWin) in
  let half := Z.quot tileSize 2 in
  if (olc.x (direction wm) =? 0) || (olc.y (direction wm) =? 0) then
    Ok ((if negb (olc.x (direction wm) =? 0)
         then [MkDrawLine
                 (olc.Vi2d (int_mul (olc.x start) tileSize)
                           (int_add (int_mul (olc.y start) tileSize) half))
                 (olc.Vi2d (int_mul (olc.x end_) tileSize)
                           (int_add (int_mul (olc.y end_) tileSize) half))]
         else []) ++
        (if negb (olc.y (direction wm) =? 0)
         then [MkDrawLine
                 (olc.Vi2d (int_add (int_mul (olc.x start) tileSize) half)
                           (int_mul (olc.y start) tileSize))
                 (olc.Vi2d (int_add (int_mul (olc.x end_) tileSize) half)
                           (int_mul (olc.y end_) tileSize))]
         else []))
  else if negb (olc.x (direction wm) =? olc.y (direction wm)) then
    Ok [MkDrawLine
          (olc.Vi2d (int_mul (olc.x start) tileSize)
                    (int_mul (int_add (olc.y start) 1) tileSize))
          (olc.Vi2d (int_mul (olc.x end_) tileSize)
                    (int_mul (int_add (olc.y end_) 1) tileSize))]
  else
    Ok [MkDrawLine
          (olc.Vi2d (int_mul (olc.x start) tileSize)
                    (int_mul (olc.y start) tileSize))
          (olc.Vi2d (int_mul (olc.x end_) tileSize)
                    (int_mul (olc.y end_) tileSize))].
End Drawing.

(** ** The frame loop *)

Module Loop.
(** [App] with the member [endMessage].  The [float] timers are left out:
    the outcome of each comparison with a timer is an input of the frame. *)
Record t : Type := Mk {
  members : App.t;
  endMessage : string
}.

(** What a frame receives: [restartElapsed] is the test
    [restartTimer > 2.0f], [thinkElapsed] the test
    [aiThinkAccumulate > aiThinkTime], [ready] the test
    [status != std::future_status::timeout], [pressed] is
    [GetMouse(0).bPressed] and [mouse] is [GetMousePos()]. *)
Record input : Type := MkInput {
  restartElapsed : bool;
  thinkElapsed : bool;
  ready : bool;
  pressed : bool;
  mouse : olc.vi2d
}.

(** A computation on the members of [App.t]. *)
Definition on_members {A} (m : M App.t A) : M t A :=
  fun s => let (r, a') := m (members s) in (r, Mk a' (endMessage s)).

Definition set_endMessage (msg : string) : M t unit :=
  modify (fun s => Mk (members s) msg).

Section Frames.
Local Open Scope state_scope.
Local Open Scope string_scope.

(** [OnUserCreate]: filling [PieceToRenderable] is presentation. *)
Definition OnUserCreate : M t bool :=
  on_members App.Reset ;; ret true.

(** [OnUserUpdate].  Of the drawing only [DrawWinningLine] is kept, which
    reads the board with [at]; the text written to [std::cout] is left
    out. *)
Definition OnUserUpdate (inp : input) : M t bool :=
  let* ended := read (fun s => Ok (App.bGameEnded (members s))) in
  if ended : bool then
    if restartElapsed inp then on_members App.Reset ;; ret true
    else
      let* wm := read (fun s => Ok (App.winningMove (members s))) in
      match wm with
      | Some w =>
          let* lines := read (fun s => DrawWinningLine (App.board (members s)) w) in
          ret true
      | Datatypes.None => ret true
      end
  else
    let* turn := read (fun s => Ok (App.currentTurn (members s))) in
    (if useAi && EPiece.eqb turn computerPiece
     then on_members (App.HandleAiTurn (thinkElapsed inp) (ready inp))
     else on_members (App.HandlePlayerTurn (pressed inp)
                        (WindowPosToBoardIdx (mouse inp)))) ;;
    let* wm := read (fun s => Ok (App.winningMove (members s))) in
    match wm with
    | Some w =>
        on_members (modify (App.set_bGameEnded true)) ;;
        (if useAi && EPiece.eqb (piece w) computerPiece
         then set_endMessage "Computer won!"
         else set_endMessage (if EPiece.eqb (piece w) EPiece.Cross
                              then "Crosses win!" else "Circles win!")) ;;
        ret true
    | Datatypes.None =>
        let* placed := read (fun s => Ok (App.placedPieces (members s))) in
        if placed >=? boardWidth * boardWidth then
          on_members (modify (App.set_bGameEnded true)) ;;
          set_endMessage "It's a draw :/" ;;
          ret true
        else ret true
    end.
End Frames.

(** The state of a default-constructed [App]. *)
Definition initial : t := Mk App.initial EmptyString.
End Loop.

(** * Part II: vocabulary of the properties *)

(** ** Grid positions *)

Definition in_grid (p : olc.vi2d) : Prop :=
  0 <= olc.x p < boardWidth /\ 0 <= olc.y p < boardWidth.

(** The index arithmetic of the source, [pos.x * boardWidth + pos.y], and
    its inverse [{i / boardWidth, i % boardWidth}]. *)
Definition index_of (p : olc.vi2d) : Z := olc.x p * boardWidth + olc.y p.

Definition pos_of (i : Z) : olc.vi2d :=
  olc.Vi2d (Z.quot i boardWidth) (Z.rem i boardWidth).

(** The cell at [p] exists and holds [e]. *)
Definition cell_is (b : Board) (e : EPiece.t) (p : olc.vi2d) : Prop :=
  in_grid p /\ b !! Z.to_nat (index_of p) = Some e.

(** Index [j] names an Empty cell of [b]. *)
Definition empty_cell (b : Board) (j : Z) : Prop :=
  in_bounds j = true /\ b !! Z.to_nat j = Some EPiece.None.

(** ** Runs *)

(** [shift p d j] is the cell [j] steps from [p] along [d], in exact
    arithmetic. *)
Definition shift (p d : olc.vi2d) (j : Z) : olc.vi2d :=
  olc.Vi2d (olc.x p + j * olc.x d) (olc.y p + j * olc.y d).

Definition neg_dir (d : olc.vi2d) : olc.vi2d :=
  olc.Vi2d (- olc.x d) (- olc.y d).

(** A direction of the eight neighbours. *)
Definition unit_dir (d : olc.vi2d) : Prop :=
  -1 <= olc.x d <= 1 /\ -1 <= olc.y d <= 1.

(** The four direction families, in the order [CheckWin] tries them, each
    by its negative direction. *)
Definition families : list olc.vi2d :=
  [olc.Vi2d (-1) 0; olc.Vi2d 0 (-1); olc.Vi2d (-1) (-1); olc.Vi2d (-1) 1].

(** [len] cells holding [e], starting at [a] and continuing against [d]:
    [a] is the cell of the run that lies furthest along [d], its extremal
    cell in the negative direction. *)
Definition is_run (b : Board) (e : EPiece.t) (a d : olc.vi2d) (len : Z)
    : Prop :=
  forall j, 0 <= j < len -> cell_is b e (shift a d (- j)).

(** [q] lies on a run of at least [piecesToWin] cells holding [e] in the
    family of [d]. *)
Definition on_winning_run (b : Board) (e : EPiece.t) (q d : olc.vi2d)
    : Prop :=
  exists a len j,
    piecesToWin <= len /\ is_run b e a d len /\
    0 <= j < len /\ q = shift a d (- j).

(** ** Counting cells *)

Fixpoint count_piece (P : EPiece.t -> bool) (b : Board) : nat :=
  match b with
  | [] => 0
  | p :: b' => (if P p then 1 else 0) + count_piece P b'
  end.

Definition is_None (p : EPiece.t) : bool := EPiece.eqb p EPiece.None.

Definition count_empty : Board -> nat := count_piece is_None.

Definition count_placed : Board -> nat :=
  count_piece (fun p => negb (is_None p)).

(** ** Scores *)

(** The score [FindBestMove] gives to cell [i]: the value of
    [MiniMax(board, 0, i, false)] on the board with [piece] at [i]. *)
Definition score (b : Board) (piece : EPiece.t) (i : Z) : result Z :=
  fst (MiniMax 0 i false (<[Z.to_nat i := piece]> b)).

(** What [(bestVal, bestMove)] holds after the cells below [k] have been
    scanned: the sentinel as long as no cell was Empty, otherwise the first
    Empty cell of maximal score and that score. *)
Definition best_upto (b : Board) (piece : EPiece.t) (k : Z) (acc : Z * Z)
    : Prop :=
  ((forall j, 0 <= j < k -> ~ empty_cell b j) /\ acc = (-1000, -1)) \/
  (0 <= snd acc < k /\ empty_cell b (snd acc) /\
   score b piece (snd acc) = Ok (fst acc) /\ -1 <= fst acc <= 1 /\
   (forall j, 0 <= j < k -> empty_cell b j ->
      exists vj, score b piece j = Ok vj /\ vj <= fst acc) /\
   (forall j, 0 <= j < snd acc -> empty_cell b j ->
      exists vj, score b piece j = Ok vj /\ vj < fst acc)).

(** ** Boards of the examples *)

(** [X, X, Empty, O, O, Empty, Empty, Empty, Empty] *)
Definition scenario_board : Board :=
  [EPiece.Cross; EPiece.Cross; EPiece.None;
   EPiece.Cricle; EPiece.Cricle; EPiece.None;
   EPiece.None; EPiece.None; EPiece.None].

(** Cells 0, 1 and 2 hold a cross. *)
Definition three_crosses : Board := <[2%nat := EPiece.Cross]> scenario_board.

(** A board with a single Empty cell, the last one. *)
Definition last_cell_board : Board :=
  [EPiece.Cross; EPiece.Cricle; EPiece.Cross;
   EPiece.Cross; EPiece.Cricle; EPiece.Cricle;
   EPiece.Cricle; EPiece.Cross; EPiece.None].

(** ** States of the application *)

(** The states the game can be in: whatever [Reset] leaves, and from there
    any sequence of player and computer turns, with any input. *)
Inductive reachable : App.t -> Prop :=
| reach_Reset (s s' : App.t) (r : result unit) :
    App.Reset s = (r, s') -> reachable s'
| reach_player (s s' : App.t) (pressed : bool) (tile : Z) (r : result unit) :
    reachable s -> App.HandlePlayerTurn pressed tile s = (r, s') ->
    reachable s'
| reach_ai (s s' : App.t) (elapsed ready : bool) (r : result unit) :
    reachable s -> App.HandleAiTurn elapsed ready s = (r, s') ->
    reachable s'.

(** The invariant behind the placement counter. *)
Definition counted (s : App.t) : Prop :=
  board_wf (App.board s) /\
  Z.of_nat (count_placed (App.board s)) = App.placedPieces s /\
  App.currentTurn s <> EPiece.None.

(** The game members of [s'] are those of [s]. *)
Definition same_game (s s' : App.t) : Prop :=
  App.board s' = App.board s /\
  App.placedPieces s' = App.placedPieces s /\
  App.currentTurn s' = App.currentTurn s.

(** [s'] is [s] after [p] was put on the Empty cell [i]. *)
Definition placed_at (s s' : App.t) (i : Z) (p : EPiece.t) : Prop :=
  empty_cell (App.board s) i /\
  App.board s' = <[Z.to_nat i := p]> (App.board s) /\
  App.placedPieces s' = int_add (App.placedPieces s) 1 /\
  App.currentTurn s' = App.other_turn (App.currentTurn s).

(** The first moves of a game: after [Reset] the player clicks on cell 0,
    which starts the search, and the computer takes the result of the
    search. *)
Definition after_click : App.t :=
  snd (App.HandlePlayerTurn true 0 (snd (App.Reset App.initial))).

Definition after_reply : App.t :=
  snd (App.HandleAiTurn true true after_click).

(** ** The window and the winning line *)

(** The pointer is inside the window of [boardWidth * tileSize] pixels. *)
Definition mouse_in_window (p : olc.vi2d) : Prop :=
  0 <= olc.x p < boardWidth * tileSize /\
  0 <= olc.y p < boardWidth * tileSize.

(** The cell of the line through [q] in the family of [d] that lies
    furthest along [d]. *)
Definition line_start (d q : olc.vi2d) : olc.vi2d :=
  olc.Vi2d (if olc.x d =? 0 then olc.x q else 0)
           (if olc.y d =? 0 then olc.y q
            else if olc.y d =? 1 then boardWidth - 1 else 0).

(** The walk of [DrawWinningLine] only tests the lower bounds; on the
    rising diagonal it stays on the grid from the cells whose coordinates
    sum to at most [boardWidth - 1]. *)
Definition walk_safe (d s : olc.vi2d) : Prop :=
  olc.y d = 1 -> olc.x s + olc.y s <= boardWidth - 1.

Definition walk_measure (d s : olc.vi2d) : Z :=
  if olc.x d <? 0 then olc.x s else olc.y s.

(** ** Lines on the board and the course of a game *)

Definition count_of (p : EPiece.t) : Board -> nat :=
  count_piece (EPiece.eqb p).

(** The board holds a line of [piecesToWin] cells of [e]. *)
Definition has_line (b : Board) (e : EPiece.t) : Prop :=
  exists a d, In d families /\ is_run b e a d piecesToWin.

(** No player has a line. *)
Definition no_line (b : Board) : Prop :=
  forall e, e <> EPiece.None -> ~ has_line b e.

(** The call of [HandleAiTurn] or [HandlePlayerTurn] that a frame makes. *)
Definition turn_action (inp : Loop.input) : M App.t unit :=
  fun a =>
    (if useAi && EPiece.eqb (App.currentTurn a) computerPiece
     then App.HandleAiTurn (Loop.thinkElapsed inp) (Loop.ready inp)
     else App.HandlePlayerTurn (Loop.pressed inp)
            (WindowPosToBoardIdx (Loop.mouse inp))) a.

(** The message for a winner. *)
Definition winner_message (p : EPiece.t) : string :=
  if EPiece.eqb p computerPiece then "Computer won!"%string
  else "Crosses win!"%string.

(** What the end of a running frame makes of the state the turn left. *)
Definition frame_end (s : Loop.t) : Loop.t :=
  match App.winningMove (Loop.members s) with
  | Some w =>
      Loop.Mk (App.set_bGameEnded true (Loop.members s))
        (if useAi && EPiece.eqb (piece w) computerPiece
         then "Computer won!"%string
         else if EPiece.eqb (piece w) EPiece.Cross
              then "Crosses win!"%string else "Circles win!"%string)
  | Datatypes.None =>
      if App.placedPieces (Loop.members s) >=? boardWidth * boardWidth
      then Loop.Mk (App.set_bGameEnded true (Loop.members s))
             "It's a draw :/"%string
      else s
  end.

(** The states of a run of the program: [OnUserCreate] on the
    default-constructed [App], then frames with any input. *)
Inductive playing : Loop.t -> Prop :=
| playing_create (s : Loop.t) (r : result bool) :
    Loop.OnUserCreate Loop.initial = (r, s) -> playing s
| playing_frame (s s' : Loop.t) (inp : Loop.input) (r : result bool) :
    playing s -> Loop.OnUserUpdate inp s = (r, s') -> playing s'.

(** The invariant of a run. *)
Definition game_ok (s : Loop.t) : Prop :=
  let a := Loop.members s in
  let b := App.board a in
  board_wf b /\
  Z.of_nat (count_placed b) = App.placedPieces a /\
  ((App.currentTurn a = EPiece.Cross /\
    count_of EPiece.Cross b = count_of EPiece.Cricle b) \/
   (App.currentTurn a = EPiece.Cricle /\
    count_of EPiece.Cross b = S (count_of EPiece.Cricle b))) /\
  match App.winningMove a with
  | Some wm =>
      App.bGameEnded a = true /\
      piece wm = App.other_turn (App.currentTurn a) /\
      In (direction wm) families /\
      (exists i, in_bounds i = true /\ CheckWin b i = Ok (Some wm)) /\
      Loop.endMessage s = winner_message (piece wm)
  | Datatypes.None =>
      no_line b /\
      if App.bGameEnded a
      then App.placedPieces a = board_size /\
           Loop.endMessage s = "It's a draw :/"%string
      else App.placedPieces a < board_size /\
           (App.currentTurn a = computerPiece ->
            App.aiNextmMove a = Some (b, computerPiece))
  end.

(** ** Games against the search *)

(** The reply of the computer to the board [b1] ends the game in its
    favour or leads to a board that satisfies [k]. *)
Definition reply_safe (k : Board -> bool) (b1 : Board) : bool :=
  match FindBestMove b1 computerPiece with
  | Ok m =>
      let b2 := <[Z.to_nat m := computerPiece]> b1 in
      match CheckWin b2 m with
      | Ok (Some _) => true
      | Ok Datatypes.None => k b2
      | _ => false
      end
  | _ => false
  end.

(** With the player to move on [b], no sequence of at most [n] moves of
    the player, each answered by [FindBestMove], gives the player a line,
    and the game is over after them. *)
Fixpoint safe (n : nat) (b : Board) : bool :=
  match n with
  | O => false
  | S n' =>
      forallb
        (fun i =>
           match at_ b i with
           | Ok EPiece.None =>
               let b1 := <[Z.to_nat i := playerPiece]> b in
               match CheckWin b1 i with
               | Ok Datatypes.None =>
                   (Z.of_nat (count_placed b1) >=? board_size)
                   || reply_safe (safe n') b1
               | _ => false
               end
           | _ => true
           end)
        (seqZ 0 board_size)
  end.

(** The player has not won and cannot win any more. *)
Definition unbeaten (s : Loop.t) : Prop :=
  let a := Loop.members s in
  (forall wm, App.winningMove a = Some wm -> piece wm = computerPiece) /\
  (App.bGameEnded a = false ->
   (App.currentTurn a = playerPiece ->
    exists n, safe n (App.board a) = true) /\
   (App.currentTurn a = computerPiece ->
    exists n, reply_safe (safe n) (App.board a) = true)).

(** ** Games of the examples *)

(** The state after [OnUserCreate] and one frame for each input. *)
Definition played (l : list Loop.input) : Loop.t :=
  fold_left (fun s inp => snd (Loop.OnUserUpdate inp s)) l
    (snd (Loop.OnUserCreate Loop.initial)).

(** A frame with a click at pixel [(x, y)], and a frame in which the
    search result is taken. *)
Definition click (x y : Z) : Loop.input :=
  Loop.MkInput false false false true (olc.Vi2d x y).

Definition think : Loop.input :=
  Loop.MkInput false true true false (olc.Vi2d 0 0).

(** The player takes cell 0, and it is the computer's turn. *)
Definition first_click : Loop.t := played [click 0 0].

(** The player takes cells 0, 1 and 3; the computer answers with 4, 2 and
    6 and has the rising diagonal. *)
Definition won_game : Loop.t :=
  played [click 0 0; think; click 0 40; think; click 40 0; think].

(** [O, O, Empty, X, X, Empty, Empty, Empty, Empty] *)
Definition open_win : Board :=
  [EPiece.Cricle; EPiece.Cricle; EPiece.None;
   EPiece.Cross; EPiece.Cross; EPiece.None;
   EPiece.None; EPiece.None; EPiece.None].

(** * Part III: lemmas *)

(** ** Pieces *)

Lemma EPiece_eqb_spec (a b : EPiece.t) : reflect (a = b) (EPiece.eqb a b).
Proof. destruct a, b; constructor; congruence. Qed.

Lemma EPiece_eqb_refl (a : EPiece.t) : EPiece.eqb a a = true.
Proof. now destruct a. Qed.

Lemma EPiece_eqb_neq (a b : EPiece.t) : EPiece.eqb a b = false <-> a <> b.
Proof. destruct a, b; simpl; split; congruence. Qed.

(** ** Integers *)

Lemma int_wrap_small (z : Z) : int_range z -> int_wrap z = z.
Proof.
  unfold int_range, int_wrap. intros H.
  destruct (Z.leb_spec (- int_half) z), (Z.ltb_spec z int_half);
    simpl; lia.
Qed.

(** [int_wrap] is reduction modulo [2^32] into the signed range. *)
Lemma int_wrap_mod (z : Z) :
  int_wrap z = (z + 2 ^ 31) mod 2 ^ 32 - 2 ^ 31.
Proof.
  unfold int_wrap.
  change int_half with (2 ^ 31). change int_modulus with (2 ^ 32).
  destruct (Z.leb_spec (- 2 ^ 31) z), (Z.ltb_spec z (2 ^ 31));
    simpl; try reflexivity.
  rewrite Z.mod_small; lia.
Qed.

Lemma int_wrap_range (z : Z) : int_range (int_wrap z).
Proof.
  rewrite int_wrap_mod. unfold int_range.
  change int_half with (2 ^ 31).
  pose proof (Z.mod_pos_bound (z + 2 ^ 31) (2 ^ 32) ltac:(lia)). lia.
Qed.

Lemma int_add_small (a b : Z) : int_range (a + b) -> int_add a b = a + b.
Proof. apply int_wrap_small. Qed.

(** A positive step from a grid coordinate moves up or wraps below zero. *)
Lemma int_add_up (c d : Z) :
  0 <= c < boardWidth -> 0 < d < int_half ->
  int_add c d < 0 \/ c < int_add c d.
Proof.
  unfold boardWidth. intros Hc Hd. unfold int_add.
  destruct (Z_lt_dec (c + d) int_half) as [Hlt|Hge].
  - right. rewrite int_wrap_small; unfold int_range; lia.
  - left. rewrite int_wrap_mod. unfold int_half in *.
    replace (c + d + 2 ^ 31) with (c + d - 2 ^ 31 + 1 * 2 ^ 32) by lia.
    rewrite Z.mod_add by lia. rewrite Z.mod_small; lia.
Qed.

Lemma int_add_down (c d : Z) :
  0 <= c < boardWidth -> - int_half <= d < 0 -> int_add c d < c.
Proof.
  unfold boardWidth. intros Hc Hd. unfold int_add.
  rewrite int_wrap_small; unfold int_range, int_half in *; lia.
Qed.

(** ** Access to the board *)

Lemma in_bounds_true (i : Z) : in_bounds i = true <-> 0 <= i < board_size.
Proof. unfold in_bounds. rewrite andb_true_iff, Z.leb_le, Z.ltb_lt. tauto. Qed.

Lemma in_grid_index (p : olc.vi2d) : in_grid p -> in_bounds (index_of p) = true.
Proof.
  unfold in_grid, index_of. intros H. apply in_bounds_true.
  unfold board_size, boardWidth in *. lia.
Qed.

Lemma pos_of_in_grid (i : Z) : in_bounds i = true -> in_grid (pos_of i).
Proof.
  rewrite in_bounds_true. unfold board_size, in_grid, pos_of, boardWidth.
  intros H. simpl.
  rewrite Z.quot_div_nonneg, Z.rem_mod_nonneg by lia.
  pose proof (Z.mod_pos_bound i 3 ltac:(lia)).
  pose proof (Z.div_lt_upper_bound i 3 3 ltac:(lia) ltac:(lia)).
  pose proof (Z.div_pos i 3 ltac:(lia) ltac:(lia)). lia.
Qed.

Lemma index_of_pos_of (i : Z) : in_bounds i = true -> index_of (pos_of i) = i.
Proof.
  rewrite in_bounds_true. unfold board_size, index_of, pos_of, boardWidth.
  intros H. simpl.
  rewrite Z.quot_div_nonneg, Z.rem_mod_nonneg by lia.
  pose proof (Z.div_mod i 3 ltac:(lia)). lia.
Qed.

Lemma pos_of_index_of (p : olc.vi2d) : in_grid p -> pos_of (index_of p) = p.
Proof.
  destruct p as [px py]. unfold in_grid, index_of, pos_of, boardWidth. simpl.
  intros H.
  rewrite Z.quot_div_nonneg, Z.rem_mod_nonneg by lia.
  replace (px * 3 + py) with (py + px * 3) by lia.
  rewrite Z.div_add, Z.mod_add by lia.
  rewrite Z.div_small, Z.mod_small by lia. reflexivity.
Qed.

Lemma at_in_bounds (b : Board) (i : Z) :
  board_wf b -> in_bounds i = true ->
  exists p, at_ b i = Ok p /\ b !! Z.to_nat i = Some p.
Proof.
  intros Hwf Hi. unfold at_. rewrite Hi.
  destruct (b !! Z.to_nat i) as [p|] eqn:E; [eauto|].
  apply lookup_ge_None in E. apply in_bounds_true in Hi.
  unfold board_wf in Hwf. lia.
Qed.

Lemma at_out_of_bounds (b : Board) (i : Z) :
  in_bounds i = false -> at_ b i = Raise out_of_range.
Proof. intros Hi. unfold at_. now rewrite Hi. Qed.

Lemma at_Ok (b : Board) (i : Z) (p : EPiece.t) :
  at_ b i = Ok p -> in_bounds i = true /\ b !! Z.to_nat i = Some p.
Proof.
  unfold at_. destruct (in_bounds i); [|discriminate].
  destruct (b !! Z.to_nat i); [|discriminate]. now intros [= ->].
Qed.

(** The two guards of [CheckLine] together test membership in the grid. *)
Lemma grid_guard (p : olc.vi2d) :
  (if (olc.x p <? 0) || (olc.x p >=? boardWidth) then true
   else (olc.y p <? 0) || (olc.y p >=? boardWidth)) = false <-> in_grid p.
Proof.
  unfold in_grid. rewrite !Z.geb_leb.
  destruct (Z.ltb_spec (olc.x p) 0), (Z.leb_spec boardWidth (olc.x p)),
    (Z.ltb_spec (olc.y p) 0), (Z.leb_spec boardWidth (olc.y p));
    simpl; split; intros; try discriminate; try lia; reflexivity.
Qed.

(** ** [CheckLine] *)

Lemma in_grid_dec (p : olc.vi2d) : {in_grid p} + {~ in_grid p}.
Proof.
  unfold in_grid.
  destruct (Z_le_dec 0 (olc.x p)), (Z_lt_dec (olc.x p) boardWidth),
    (Z_le_dec 0 (olc.y p)), (Z_lt_dec (olc.y p) boardWidth);
    (left; lia) || (right; lia).
Qed.

Lemma cell_is_dec (b : Board) (e : EPiece.t) (p : olc.vi2d) :
  {cell_is b e p} + {~ cell_is b e p}.
Proof.
  unfold cell_is. destruct (in_grid_dec p) as [Hg|Hg]; [|right; tauto].
  destruct (b !! Z.to_nat (index_of p)) as [c|] eqn:E.
  - destruct (EPiece_eqb_spec c e) as [->|Hne]; [left; auto|].
    right. intros [_ [= ?]]. contradiction.
  - right. intros [_ ?]. discriminate.
Qed.

Lemma CheckLine_rec_miss (f : nat) (b : Board) (e : EPiece.t)
    (p d : olc.vi2d) :
  board_wf b -> ~ cell_is b e p -> CheckLine_rec (S f) b e p d = Ok 0.
Proof.
  intros Hwf Hmiss. cbn [CheckLine_rec].
  pose proof (grid_guard p) as Hg.
  destruct ((olc.x p <? 0) || (olc.x p >=? boardWidth)); [reflexivity|].
  destruct ((olc.y p <? 0) || (olc.y p >=? boardWidth)); [reflexivity|].
  assert (Hin : in_grid p) by now apply Hg.
  destruct (at_in_bounds b _ Hwf (in_grid_index p Hin)) as (c & Hat & Hc).
  fold (index_of p). rewrite Hat. cbn [rbind].
  destruct (EPiece_eqb_spec c e) as [->|Hne]; [|reflexivity].
  exfalso. apply Hmiss. split; assumption.
Qed.

Lemma CheckLine_rec_hit (f : nat) (b : Board) (e : EPiece.t)
    (p d : olc.vi2d) :
  cell_is b e p ->
  CheckLine_rec (S f) b e p d =
  rbind (CheckLine_rec f b e (olc.add p d) d) (fun n => Ok (1 + n)).
Proof.
  intros [Hin Hc]. cbn [CheckLine_rec].
  pose proof (grid_guard p) as Hg.
  destruct ((olc.x p <? 0) || (olc.x p >=? boardWidth)).
  { apply Hg in Hin. discriminate. }
  destruct ((olc.y p <? 0) || (olc.y p >=? boardWidth)).
  { apply Hg in Hin. discriminate. }
  fold (index_of p). unfold at_. rewrite (in_grid_index p Hin), Hc.
  cbn [rbind]. now rewrite EPiece_eqb_refl.
Qed.

(** Termination by a measure [mu] on grid positions that a step along
    [d] decreases: [fuel] above the measure is enough, and the count is
    bounded by the measure. *)
Lemma CheckLine_rec_measure (b : Board) (e : EPiece.t) (d : olc.vi2d)
    (mu : olc.vi2d -> Z) :
  board_wf b ->
  (forall p, in_grid p -> 0 < mu p <= boardWidth) ->
  (forall p, in_grid p -> in_grid (olc.add p d) -> mu (olc.add p d) < mu p) ->
  forall (fuel : nat) (p : olc.vi2d),
    (0 < fuel)%nat -> (in_grid p -> mu p < Z.of_nat fuel) ->
    exists n, CheckLine_rec fuel b e p d = Ok n /\
              0 <= n <= boardWidth /\ (in_grid p -> n <= mu p).
Proof.
  intros Hwf Hpos Hdec. induction fuel as [|f IH]; intros p Hf Hmu; [lia|].
  destruct (cell_is_dec b e p) as [Hhit|Hmiss].
  - destruct Hhit as [Hin Hc]. specialize (Hmu Hin).
    rewrite CheckLine_rec_hit by (split; assumption).
    pose proof (Hpos p Hin) as Hp.
    destruct (in_grid_dec (olc.add p d)) as [Hin'|Hout'].
    + pose proof (Hdec p Hin Hin') as Hlt. pose proof (Hpos _ Hin') as Hp'.
      destruct (IH (olc.add p d)) as (n & -> & Hn & Hb); [lia|lia|].
      specialize (Hb Hin'). exists (1 + n). cbn [rbind].
      split; [reflexivity|]. lia.
    + destruct (IH (olc.add p d)) as (n & Hn & Hr & _); [lia|tauto|].
      destruct f as [|f']; [lia|].
      rewrite CheckLine_rec_miss in Hn by (unfold cell_is; tauto).
      injection Hn as <-. rewrite CheckLine_rec_miss by (unfold cell_is; tauto).
      exists 1. cbn [rbind]. split; [reflexivity|]. unfold boardWidth in *. lia.
  - rewrite CheckLine_rec_miss by assumption. exists 0.
    split; [reflexivity|]. split; [unfold boardWidth; lia|].
    intros Hin. specialize (Hpos p Hin). lia.
Qed.

(** Totality of [CheckLine_rec] for a direction with a nonzero component. *)
Lemma CheckLine_rec_total (b : Board) (e : EPiece.t) (p d : olc.vi2d)
    (fuel : nat) :
  board_wf b ->
  int_range (olc.x d) -> int_range (olc.y d) ->
  olc.x d <> 0 \/ olc.y d <> 0 ->
  (line_fuel <= fuel)%nat ->
  exists n, CheckLine_rec fuel b e p d = Ok n /\ 0 <= n <= boardWidth.
Proof.
  intros Hwf Hx Hy Hnz Hfuel.
  assert (Hlf : line_fuel = 4%nat) by reflexivity.
  unfold int_range in Hx, Hy.
  assert (Hcases : olc.x d < 0 \/ 0 < olc.x d \/ olc.y d < 0 \/ 0 < olc.y d)
    by lia.
  destruct Hcases as [Hc|[Hc|[Hc|Hc]]].
  - destruct (CheckLine_rec_measure b e d (fun q => olc.x q + 1) Hwf)
      with (fuel := fuel) (p := p) as (n & Hn & Hr & _).
    + unfold in_grid. intros; lia.
    + unfold in_grid. intros q Hq _. cbn [olc.add olc.x].
      pose proof (int_add_down (olc.x q) (olc.x d)). lia.
    + lia.
    + unfold in_grid, boardWidth. intros; lia.
    + eauto.
  - destruct (CheckLine_rec_measure b e d (fun q => boardWidth - olc.x q) Hwf)
      with (fuel := fuel) (p := p) as (n & Hn & Hr & _).
    + unfold in_grid. intros; lia.
    + unfold in_grid. intros q Hq Hq'. cbn [olc.add olc.x] in *.
      pose proof (int_add_up (olc.x q) (olc.x d)). lia.
    + lia.
    + unfold in_grid, boardWidth. intros; lia.
    + eauto.
  - destruct (CheckLine_rec_measure b e d (fun q => olc.y q + 1) Hwf)
      with (fuel := fuel) (p := p) as (n & Hn & Hr & _).
    + unfold in_grid. intros; lia.
    + unfold in_grid. intros q Hq _. cbn [olc.add olc.y].
      pose proof (int_add_down (olc.y q) (olc.y d)). lia.
    + lia.
    + unfold in_grid, boardWidth. intros; lia.
    + eauto.
  - destruct (CheckLine_rec_measure b e d (fun q => boardWidth - olc.y q) Hwf)
      with (fuel := fuel) (p := p) as (n & Hn & Hr & _).
    + unfold in_grid. intros; lia.
    + unfold in_grid. intros q Hq Hq'. cbn [olc.add olc.y] in *.
      pose proof (int_add_up (olc.y q) (olc.y d)). lia.
    + lia.
    + unfold in_grid, boardWidth. intros; lia.
    + eauto.
Qed.

(** More fuel does not change a count. *)
Lemma CheckLine_rec_mono (b : Board) (e : EPiece.t) (d : olc.vi2d) :
  forall (f f' : nat) (p : olc.vi2d) (n : Z),
    (f <= f')%nat -> CheckLine_rec f b e p d = Ok n ->
    CheckLine_rec f' b e p d = Ok n.
Proof.
  induction f as [|f IH]; intros f' p n Hle Hrun; [discriminate|].
  destruct f' as [|f']; [lia|].
  cbn [CheckLine_rec] in *.
  destruct ((olc.x p <? 0) || (olc.x p >=? boardWidth)); [assumption|].
  destruct ((olc.y p <? 0) || (olc.y p >=? boardWidth)); [assumption|].
  destruct (at_ b (olc.x p * boardWidth + olc.y p)) as [c| |];
    cbn [rbind] in *; try discriminate.
  destruct (negb (EPiece.eqb c e)); [assumption|].
  destruct (CheckLine_rec f b e (olc.add p d) d) as [m| |] eqn:Hrec;
    cbn [rbind] in Hrun; try discriminate.
  rewrite (IH f' _ m ltac:(lia) Hrec). exact Hrun.
Qed.

(** ** Runs *)

Lemma shift_0 (p d : olc.vi2d) : shift p d 0 = p.
Proof. destruct p. unfold shift. simpl. f_equal; lia. Qed.

Lemma shift_shift (p d : olc.vi2d) (i j : Z) :
  shift (shift p d i) d j = shift p d (i + j).
Proof. unfold shift. simpl. f_equal; ring. Qed.

Lemma shift_neg_dir (p d : olc.vi2d) (j : Z) :
  shift p (neg_dir d) j = shift p d (- j).
Proof. unfold shift, neg_dir. simpl. f_equal; ring. Qed.

Lemma unit_dir_neg (d : olc.vi2d) : unit_dir d -> unit_dir (neg_dir d).
Proof. unfold unit_dir, neg_dir. simpl. lia. Qed.

Lemma add_shift (p d : olc.vi2d) :
  in_grid p -> unit_dir d -> olc.add p d = shift p d 1.
Proof.
  unfold in_grid, unit_dir, olc.add, shift, boardWidth. intros Hp Hd.
  rewrite !int_add_small by (unfold int_range, int_half; lia).
  f_equal; lia.
Qed.

(** What [CheckLine] counts: the cells from [p] along [d] up to the first
    one that is off the grid or holds another piece. *)
Lemma CheckLine_rec_run (b : Board) (e : EPiece.t) (d : olc.vi2d) :
  board_wf b -> unit_dir d ->
  forall (fuel : nat) (p : olc.vi2d) (n : Z),
    CheckLine_rec fuel b e p d = Ok n ->
    0 <= n /\
    (forall j, 0 <= j < n -> cell_is b e (shift p d j)) /\
    ~ cell_is b e (shift p d n).
Proof.
  intros Hwf Hd. induction fuel as [|f IH]; intros p n Hrun; [discriminate|].
  destruct (cell_is_dec b e p) as [Hhit|Hmiss].
  - rewrite CheckLine_rec_hit in Hrun by assumption.
    destruct (CheckLine_rec f b e (olc.add p d) d) as [m| |] eqn:Hrec;
      try discriminate.
    cbn [rbind] in Hrun. injection Hrun as <-.
    rewrite add_shift in Hrec by (destruct Hhit; assumption).
    destruct (IH _ _ Hrec) as (Hm & Hcells & Hend).
    split; [lia|]. split.
    + intros j Hj. destruct (Z.eq_dec j 0) as [->|Hj0].
      * now rewrite shift_0.
      * replace j with (1 + (j - 1)) by lia. rewrite <- shift_shift.
        apply Hcells. lia.
    + rewrite <- shift_shift. exact Hend.
  - rewrite CheckLine_rec_miss in Hrun by assumption. injection Hrun as <-.
    split; [lia|]. split; [intros; lia|]. now rewrite shift_0.
Qed.

Lemma unit_dir_total (b : Board) (e : EPiece.t) (p d : olc.vi2d) :
  board_wf b -> unit_dir d -> olc.x d <> 0 \/ olc.y d <> 0 ->
  exists n, CheckLine b e p d = Ok n /\ 0 <= n <= boardWidth.
Proof.
  intros Hwf [Hx Hy] Hnz.
  apply CheckLine_rec_total; auto; unfold int_range, int_half; lia.
Qed.

(** One family of [CheckWin]: the two walks add up to at least
    [piecesToWin] exactly when the cell lies on a winning run of that
    family. *)
Lemma family_count_spec (b : Board) (e : EPiece.t) (q d : olc.vi2d) :
  board_wf b -> unit_dir d -> olc.x d <> 0 \/ olc.y d <> 0 ->
  cell_is b e q ->
  exists c, family_count b e q d (shift q d (-1)) (neg_dir d) = Ok c /\
            (piecesToWin <= c <-> on_winning_run b e q d).
Proof.
  intros Hwf Hd Hnz Hq. unfold family_count.
  destruct (unit_dir_total b e q d Hwf Hd Hnz) as (n1 & Hn1 & _).
  destruct (unit_dir_total b e (shift q d (-1)) (neg_dir d) Hwf
              (unit_dir_neg d Hd)) as (n2 & Hn2 & _).
  { unfold neg_dir. simpl. lia. }
  rewrite Hn1, Hn2. cbn [rbind]. exists (n1 + n2). split; [reflexivity|].
  destruct (CheckLine_rec_run b e d Hwf Hd _ _ _ Hn1) as (H1 & Hc1 & He1).
  destruct (CheckLine_rec_run b e (neg_dir d) Hwf (unit_dir_neg d Hd)
              _ _ _ Hn2) as (H2 & Hc2 & He2).
  rewrite shift_neg_dir, shift_shift in He2.
  assert (Hn1pos : 1 <= n1).
  { destruct (Z.eq_dec n1 0) as [->|]; [|lia].
    rewrite shift_0 in He1. contradiction. }
  split.
  - intros Hwin. exists (shift q d (n1 - 1)), (n1 + n2), (n1 - 1).
    split; [assumption|]. split; [|split; [lia|]].
    + intros i Hi. rewrite shift_shift.
      destruct (Z_lt_dec i n1) as [Hlt|Hge].
      * apply Hc1. lia.
      * specialize (Hc2 (i - n1) ltac:(lia)).
        rewrite shift_neg_dir, shift_shift in Hc2.
        replace (n1 - 1 + - i) with (-1 + - (i - n1)) by lia. exact Hc2.
    + rewrite shift_shift. replace (n1 - 1 + - (n1 - 1)) with 0 by lia.
      now rewrite shift_0.
  - intros (a & len & j0 & Hlen & Hrun & Hj0 & ->).
    rewrite shift_shift in He1, He2.
    assert (j0 < n1).
    { destruct (Z_lt_dec j0 n1); [assumption|]. exfalso. apply He1.
      replace (- j0 + n1) with (- (j0 - n1)) by lia. apply Hrun. lia. }
    assert (len - 1 - j0 <= n2).
    { destruct (Z_le_dec (len - 1 - j0) n2); [assumption|]. exfalso.
      apply He2.
      replace (- j0 + (-1 + - n2)) with (- (j0 + 1 + n2)) by lia.
      apply Hrun. lia. }
    lia.
Qed.

(** ** [CheckWin] *)

Lemma families_unit (d : olc.vi2d) :
  In d families -> unit_dir d /\ (olc.x d <> 0 \/ olc.y d <> 0).
Proof.
  unfold families, unit_dir. simpl.
  intros [<-|[<-|[<-|[<-|[]]]]]; simpl; lia.
Qed.

Lemma placed_cell (b : Board) (e : EPiece.t) (placed : Z) :
  in_bounds placed = true -> b !! Z.to_nat placed = Some e ->
  cell_is b e (pos_of placed).
Proof.
  intros Hb He. split; [now apply pos_of_in_grid|].
  now rewrite index_of_pos_of.
Qed.

(** Rewrites the next family of [CheckWin] in the goal with
    [family_count_spec], leaving the test against [piecesToWin]. *)
Ltac next_family Hwf Hcell c Hiff :=
  match goal with
  | |- context [family_count ?b ?e ?q ?d ?nx ?pd] =>
      let Hc := fresh "Hc" in
      destruct (family_count_spec b e q d Hwf
                  (proj1 (families_unit d ltac:(simpl; tauto)))
                  (proj2 (families_unit d ltac:(simpl; tauto))) Hcell)
        as (c & Hc & Hiff);
      replace (shift q d (-1)) with nx in Hc
        by (unfold shift, pos_of; cbn [olc.x olc.y]; f_equal; lia);
      change (neg_dir d) with pd in Hc;
      rewrite Hc; cbn [rbind]; rewrite Z.geb_leb;
      destruct (Z.leb_spec piecesToWin c)
  end.

(** [CheckWin] on a cell of the board: it answers with the first family,
    in the order of [families], in which the cell lies on a winning run of
    its own piece, and [None] when there is no such family.  The reported
    position is the cell that was asked about. *)
Lemma CheckWin_spec (b : Board) (placed : Z) :
  board_wf b -> in_bounds placed = true ->
  exists e, b !! Z.to_nat placed = Some e /\
    ((CheckWin b placed = Ok Datatypes.None /\
      forall d, In d families -> ~ on_winning_run b e (pos_of placed) d)
     \/
     (exists (k : nat) (d : olc.vi2d),
        families !! k = Some d /\
        CheckWin b placed = Ok (Some (MkWinningMove e (pos_of placed) d)) /\
        on_winning_run b e (pos_of placed) d /\
        forall (k' : nat) (d' : olc.vi2d),
          (k' < k)%nat -> families !! k' = Some d' ->
          ~ on_winning_run b e (pos_of placed) d')).
Proof.
  intros Hwf Hb.
  destruct (at_in_bounds b placed Hwf Hb) as (e & Hat & He).
  exists e. split; [assumption|].
  pose proof (placed_cell b e placed Hb He) as Hcell.
  unfold CheckWin. rewrite Hat. cbn [rbind]. cbv zeta. cbn [olc.x olc.y].
  fold (pos_of placed).
  next_family Hwf Hcell c1 Hiff1.
  { right. exists 0%nat, (olc.Vi2d (-1) 0).
    repeat split; try tauto. intros k' d' Hk. lia. }
  next_family Hwf Hcell c2 Hiff2.
  { right. exists 1%nat, (olc.Vi2d 0 (-1)).
    repeat split; try tauto. intros k' d' Hk Hd'.
    destruct k' as [|k']; [|lia]. injection Hd' as <-.
    rewrite <- Hiff1. lia. }
  next_family Hwf Hcell c3 Hiff3.
  { right. exists 2%nat, (olc.Vi2d (-1) (-1)).
    repeat split; try tauto. intros k' d' Hk Hd'.
    destruct k' as [|[|k']]; [| |lia]; injection Hd' as <-.
    - rewrite <- Hiff1. lia.
    - rewrite <- Hiff2. lia. }
  next_family Hwf Hcell c4 Hiff4.
  { right. exists 3%nat, (olc.Vi2d (-1) 1).
    repeat split; try tauto. intros k' d' Hk Hd'.
    destruct k' as [|[|[|k']]]; [| | |lia]; injection Hd' as <-.
    - rewrite <- Hiff1. lia.
    - rewrite <- Hiff2. lia.
    - rewrite <- Hiff3. lia. }
  left. split; [reflexivity|].
  intros d [<-|[<-|[<-|[<-|[]]]]].
  - rewrite <- Hiff1. lia.
  - rewrite <- Hiff2. lia.
  - rewrite <- Hiff3. lia.
  - rewrite <- Hiff4. lia.
Qed.

Lemma CheckWin_total (b : Board) (placed : Z) :
  board_wf b -> in_bounds placed = true ->
  exists w, CheckWin b placed = Ok w.
Proof.
  intros Hwf Hb.
  destruct (CheckWin_spec b placed Hwf Hb) as (e & _ & [[H _]|H]).
  - eauto.
  - destruct H as (k & d & _ & H & _). eauto.
Qed.

Lemma CheckWin_out_of_bounds (b : Board) (placed : Z) :
  in_bounds placed = false -> CheckWin b placed = Raise out_of_range.
Proof.
  intros Hb. unfold CheckWin. now rewrite at_out_of_bounds.
Qed.

(** ** Reading and writing cells *)

Lemma count_piece_le (P : EPiece.t -> bool) (b : Board) :
  (count_piece P b <= length b)%nat.
Proof. induction b as [|p b IH]; simpl; [lia|]. destruct (P p); lia. Qed.

Lemma count_piece_insert (P : EPiece.t -> bool) (b : Board) (i : nat)
    (p q : EPiece.t) :
  b !! i = Some p ->
  (count_piece P (<[i:=q]> b) + (if P p then 1 else 0) =
   count_piece P b + (if P q then 1 else 0))%nat.
Proof.
  revert i. induction b as [|c b IH]; intros i Hi; [discriminate|].
  destruct i as [|i]; simpl in *.
  - injection Hi as ->. destruct (P p), (P q); lia.
  - specialize (IH i Hi). revert IH.
    destruct (P p), (P q), (P c); lia.
Qed.

Lemma board_wf_insert (b : Board) (i : nat) (p : EPiece.t) :
  board_wf b -> board_wf (<[i:=p]> b).
Proof. unfold board_wf. now rewrite length_insert. Qed.

Lemma set_at_in_bounds (b : Board) (i : Z) (p : EPiece.t) :
  board_wf b -> in_bounds i = true ->
  set_at i p b = (Ok tt, <[Z.to_nat i := p]> b).
Proof.
  intros Hwf Hi. unfold set_at. rewrite Hi. simpl.
  apply in_bounds_true in Hi. unfold board_wf in Hwf.
  destruct (Nat.ltb_spec (Z.to_nat i) (length b)); [reflexivity|lia].
Qed.

Lemma get_at_in_bounds (b : Board) (i : Z) :
  board_wf b -> in_bounds i = true ->
  exists p, get_at i b = (Ok p, b) /\ b !! Z.to_nat i = Some p.
Proof.
  intros Hwf Hi. destruct (at_in_bounds b i Hwf Hi) as (p & Hat & Hp).
  exists p. unfold get_at, read. now rewrite Hat.
Qed.

Lemma insert_restore (b : Board) (i : nat) (p : EPiece.t) :
  b !! i = Some EPiece.None -> <[i:=EPiece.None]> (<[i:=p]> b) = b.
Proof.
  intros Hi. rewrite list_insert_insert_eq. now apply list_insert_id.
Qed.

Lemma bind_Ok {St A B} (m : M St A) (k : A -> M St B) (b b' : St) (a : A) :
  m b = (Ok a, b') -> bind m k b = k a b'.
Proof. intros H. unfold bind. now rewrite H. Qed.

Lemma bind_Raise {St A B} (m : M St A) (k : A -> M St B) (b b' : St)
    (e : exn) :
  m b = (Raise e, b') -> bind m k b = (Raise e, b').
Proof. intros H. unfold bind. now rewrite H. Qed.

(** ** Loops *)

(** A loop whose body returns normally with the board it was given, and
    maintains [I], does the same. *)
Lemma for_loop_inv {Acc : Type} (I : Z -> Acc -> Prop)
    (body : Z -> Acc -> M Board Acc) (b : Board) :
  forall (n : nat) (from : Z) (acc : Acc),
    I from acc ->
    (forall i a, from <= i < from + Z.of_nat n -> I i a ->
       exists a', body i a b = (Ok a', b) /\ I (i + 1) a') ->
    exists acc', for_loop n from body acc b = (Ok acc', b) /\
                 I (from + Z.of_nat n) acc'.
Proof.
  induction n as [|n IH]; intros from acc Hacc Hbody.
  - exists acc. split; [reflexivity|]. now replace (from + Z.of_nat 0) with from by lia.
  - destruct (Hbody from acc ltac:(lia) Hacc) as (a' & Ha' & HI').
    destruct (IH (from + 1) a' HI') as (acc' & Hloop & Hend).
    { intros i a Hi. apply Hbody. lia. }
    exists acc'. cbn [for_loop]. rewrite (bind_Ok _ _ _ _ _ Ha').
    split; [assumption|].
    now replace (from + Z.of_nat (S n)) with (from + 1 + Z.of_nat n) by lia.
Qed.

Lemma has_empty_from_spec (b : Board) :
  board_wf b ->
  forall (n : nat) (i : Z),
    0 <= i -> i + Z.of_nat n <= board_size ->
    exists h, has_empty_from n i b = (Ok h, b) /\
              (h = true <-> exists j, i <= j < i + Z.of_nat n /\ empty_cell b j).
Proof.
  intros Hwf. induction n as [|n IH]; intros i Hi Hn.
  - exists false. split; [reflexivity|]. split; [discriminate|].
    intros (j & Hj & _). lia.
  - assert (Hb : in_bounds i = true) by (apply in_bounds_true; lia).
    destruct (get_at_in_bounds b i Hwf Hb) as (c & Hget & Hc).
    cbn [has_empty_from]. rewrite (bind_Ok _ _ _ _ _ Hget).
    destruct (EPiece_eqb_spec c EPiece.None) as [->|Hne].
    + exists true. split; [reflexivity|]. split; [|reflexivity].
      intros _. exists i. split; [lia|]. split; assumption.
    + destruct (IH (i + 1)) as (h & Hh & Hiff); [lia|lia|].
      exists h. split; [assumption|]. rewrite Hiff. split.
      * intros (j & Hj & He). exists j. split; [lia|assumption].
      * intros (j & Hj & He). exists j. split; [|assumption].
        destruct (Z.eq_dec j i) as [->|]; [|lia].
        destruct He as [_ He]. congruence.
Qed.

(** ** [MiniMax] *)

Lemma cells_size : Z.of_nat cells = board_size.
Proof. reflexivity. Qed.

Lemma count_empty_fill (b : Board) (i : Z) (p : EPiece.t) :
  empty_cell b i -> p <> EPiece.None ->
  S (count_empty (<[Z.to_nat i := p]> b)) = count_empty b.
Proof.
  intros [_ Hi] Hp. unfold count_empty.
  pose proof (count_piece_insert is_None b (Z.to_nat i) _ p Hi) as H.
  change (is_None EPiece.None) with true in H.
  replace (is_None p) with false in H
    by (symmetry; now apply EPiece_eqb_neq).
  lia.
Qed.

(** One iteration of a search loop: an Empty cell is filled with [mover],
    searched and cleared again; any other cell is skipped. *)
Lemma try_cell_ok (mover : EPiece.t) (search : M Board Z)
    (pick : Z -> Z -> Z)
    (b : Board) (i best : Z) :
  board_wf b -> in_bounds i = true ->
  (empty_cell b i ->
   exists v, search (<[Z.to_nat i := mover]> b) =
             (Ok v, <[Z.to_nat i := mover]> b) /\ -1 <= v <= 1) ->
  exists best',
    (let* c := get_at i in
     if EPiece.eqb c EPiece.None then
       set_at i mover ;;
       let* v := search in
       set_at i EPiece.None ;;
       ret (pick best v)
     else ret best)%state b = (Ok best', b) /\
    ((empty_cell b i /\ exists v, -1 <= v <= 1 /\ best' = pick best v) \/
     (~ empty_cell b i /\ best' = best)).
Proof.
  intros Hwf Hi Hsearch.
  destruct (get_at_in_bounds b i Hwf Hi) as (c & Hget & Hc).
  rewrite (bind_Ok _ _ _ _ _ Hget).
  destruct (EPiece_eqb_spec c EPiece.None) as [->|Hne].
  - assert (He : empty_cell b i) by (split; assumption).
    destruct (Hsearch He) as (v & Hv & Hr).
    rewrite (bind_Ok _ _ _ _ _ (set_at_in_bounds b i mover Hwf Hi)).
    rewrite (bind_Ok _ _ _ _ _ Hv).
    rewrite (bind_Ok _ _ _ _ _
               (set_at_in_bounds _ i EPiece.None
                  (board_wf_insert b _ mover Hwf) Hi)).
    rewrite insert_restore by assumption.
    exists (pick best v). split; [reflexivity|]. left. eauto.
  - exists best. split; [reflexivity|]. right. split; [|reflexivity].
    intros [_ He]. congruence.
Qed.

Lemma computerPiece_not_None : computerPiece <> EPiece.None.
Proof. discriminate. Qed.

Lemma playerPiece_not_None : playerPiece <> EPiece.None.
Proof. discriminate. Qed.

(** [MiniMax] returns, with a score in [-1, 1], and leaves the board as it
    found it: fuel above the number of Empty cells is never exhausted. *)
Lemma MiniMax_rec_total :
  forall (fuel : nat) (b : Board) (depth placed : Z) (isMax : bool),
    board_wf b -> in_bounds placed = true -> (count_empty b < fuel)%nat ->
    exists v, MiniMax_rec fuel depth placed isMax b = (Ok v, b) /\
              -1 <= v <= 1.
Proof.
  induction fuel as [|f IH]; intros b depth placed isMax Hwf Hb Hcount;
    [lia|].
  cbn [MiniMax_rec].
  destruct (CheckWin_total b placed Hwf Hb) as (w & Hw).
  rewrite (bind_Ok _ _ b b w) by (unfold read; now rewrite Hw).
  destruct w as [wm|].
  { destruct (EPiece.eqb (piece wm) computerPiece);
      eexists; (split; [reflexivity|lia]). }
  destruct (has_empty_from_spec b Hwf cells 0) as (h & Hh & Hiff);
    [lia|rewrite cells_size; lia|].
  rewrite (bind_Ok _ _ _ _ _ Hh).
  destruct h; cbn [negb]; [|exists 0; split; [reflexivity|lia]].
  destruct Hiff as [Hsome _]. destruct (Hsome eq_refl) as (j0 & Hj0 & Hej0).
  assert (Hstep : forall mover i, mover <> EPiece.None ->
            in_bounds i = true -> empty_cell b i ->
            exists v, MiniMax_rec f (int_add depth 1) i (negb isMax)
                        (<[Z.to_nat i := mover]> b) =
                      (Ok v, <[Z.to_nat i := mover]> b) /\ -1 <= v <= 1).
  { intros mover i Hm Hi He. apply IH.
    - now apply board_wf_insert.
    - assumption.
    - pose proof (count_empty_fill b i mover He Hm). lia. }
  destruct isMax.
  - match goal with
    | |- context [for_loop cells 0 ?body ?init] =>
        destruct (for_loop_inv
                    (fun i best =>
                       (best = init /\
                        forall j, 0 <= j < i -> ~ empty_cell b j) \/
                       -1 <= best <= 1)
                    body b cells 0 init) as (v & Hloop & Hend)
    end.
    + left. split; [reflexivity|]. intros; lia.
    + intros i best Hi Hinv. rewrite cells_size in Hi.
      assert (Hbi : in_bounds i = true) by (apply in_bounds_true; lia).
      destruct (try_cell_ok computerPiece
                  (MiniMax_rec f (int_add depth 1) i (negb true))
                  Z.max b i best Hwf Hbi
                  (Hstep computerPiece i computerPiece_not_None Hbi))
        as (best' & Hrun & Hcase).
      exists best'. split; [exact Hrun|].
      destruct Hcase as [(He & v & Hv & ->)|(Hne & ->)].
      * right. lia.
      * destruct Hinv as [(-> & Hnone)|Hr]; [left|right; assumption].
        split; [reflexivity|]. intros j Hj.
        destruct (Z.eq_dec j i) as [->|]; [assumption|apply Hnone; lia].
    + exists v. split; [assumption|].
      destruct Hend as [(_ & Hnone)|Hr]; [|assumption].
      exfalso. apply (Hnone j0); assumption.
  - match goal with
    | |- context [for_loop cells 0 ?body ?init] =>
        destruct (for_loop_inv
                    (fun i best =>
                       (best = init /\
                        forall j, 0 <= j < i -> ~ empty_cell b j) \/
                       -1 <= best <= 1)
                    body b cells 0 init) as (v & Hloop & Hend)
    end.
    + left. split; [reflexivity|]. intros; lia.
    + intros i best Hi Hinv. rewrite cells_size in Hi.
      assert (Hbi : in_bounds i = true) by (apply in_bounds_true; lia).
      destruct (try_cell_ok playerPiece
                  (MiniMax_rec f (int_add depth 1) i (negb false))
                  Z.min b i best Hwf Hbi
                  (Hstep playerPiece i playerPiece_not_None Hbi))
        as (best' & Hrun & Hcase).
      exists best'. split; [exact Hrun|].
      destruct Hcase as [(He & v & Hv & ->)|(Hne & ->)].
      * right. lia.
      * destruct Hinv as [(-> & Hnone)|Hr]; [left|right; assumption].
        split; [reflexivity|]. intros j Hj.
        destruct (Z.eq_dec j i) as [->|]; [assumption|apply Hnone; lia].
    + exists v. split; [assumption|].
      destruct Hend as [(_ & Hnone)|Hr]; [|assumption].
      exfalso. apply (Hnone j0); assumption.
Qed.

Lemma bind_Ok_inv {St A B} (m : M St A) (k : A -> M St B) (s s' : St)
    (r : B) :
  bind m k s = (Ok r, s') ->
  exists a s1, m s = (Ok a, s1) /\ k a s1 = (Ok r, s').
Proof.
  unfold bind. destruct (m s) as [[a| |] s1]; intros H; try discriminate.
  eauto.
Qed.

Lemma for_loop_mono {St Acc : Type} (body body' : Z -> Acc -> M St Acc) :
  (forall i a s r s', body i a s = (Ok r, s') -> body' i a s = (Ok r, s')) ->
  forall (n : nat) (i : Z) (a : Acc) (s s' : St) (r : Acc),
    for_loop n i body a s = (Ok r, s') ->
    for_loop n i body' a s = (Ok r, s').
Proof.
  intros Hbody. induction n as [|n IH]; intros i a s s' r Hrun.
  - exact Hrun.
  - cbn [for_loop] in *.
    apply bind_Ok_inv in Hrun as (a1 & s1 & Ha1 & Hrest).
    rewrite (bind_Ok _ _ _ _ _ (Hbody _ _ _ _ _ Ha1)). now apply IH.
Qed.

Lemma try_cell_mono (mover : EPiece.t) (search search' : M Board Z)
    (pick : Z -> Z -> Z) (i best : Z) (b b' : Board) (r : Z) :
  (forall s v s', search s = (Ok v, s') -> search' s = (Ok v, s')) ->
  (let* c := get_at i in
   if EPiece.eqb c EPiece.None then
     set_at i mover ;;
     let* v := search in
     set_at i EPiece.None ;;
     ret (pick best v)
   else ret best)%state b = (Ok r, b') ->
  (let* c := get_at i in
   if EPiece.eqb c EPiece.None then
     set_at i mover ;;
     let* v := search' in
     set_at i EPiece.None ;;
     ret (pick best v)
   else ret best)%state b = (Ok r, b').
Proof.
  intros Hsearch Hrun.
  apply bind_Ok_inv in Hrun as (c & s1 & Hc & Hrun).
  rewrite (bind_Ok _ _ _ _ _ Hc).
  destruct (EPiece.eqb c EPiece.None); [|exact Hrun].
  apply bind_Ok_inv in Hrun as (u & s2 & Hset & Hrun).
  rewrite (bind_Ok _ _ _ _ _ Hset).
  apply bind_Ok_inv in Hrun as (v & s3 & Hv & Hrun).
  rewrite (bind_Ok _ _ _ _ _ (Hsearch _ _ _ Hv)). exact Hrun.
Qed.

(** The value of a call does not depend on the fuel it had to spare. *)
Lemma MiniMax_rec_mono :
  forall (f f' : nat) (depth placed : Z) (isMax : bool) (b b' : Board)
         (v : Z),
    (f <= f')%nat ->
    MiniMax_rec f depth placed isMax b = (Ok v, b') ->
    MiniMax_rec f' depth placed isMax b = (Ok v, b').
Proof.
  induction f as [|f IH]; intros f' depth placed isMax b b' v Hle Hrun;
    [discriminate|].
  destruct f' as [|f']; [lia|].
  cbn [MiniMax_rec] in *.
  apply bind_Ok_inv in Hrun as (w & s1 & Hw & Hrun).
  rewrite (bind_Ok _ _ _ _ _ Hw).
  destruct w as [wm|]; [exact Hrun|].
  apply bind_Ok_inv in Hrun as (h & s2 & Hh & Hrun).
  rewrite (bind_Ok _ _ _ _ _ Hh).
  destruct (negb h); [exact Hrun|].
  destruct isMax.
  - revert Hrun. apply for_loop_mono. intros i a s r s'.
    apply try_cell_mono. intros s0 v0 s0'. apply IH. lia.
  - revert Hrun. apply for_loop_mono. intros i a s r s'.
    apply try_cell_mono. intros s0 v0 s0'. apply IH. lia.
Qed.

Lemma MiniMax_total (b : Board) (depth placed : Z) (isMax : bool) :
  board_wf b -> in_bounds placed = true ->
  exists v, MiniMax depth placed isMax b = (Ok v, b) /\ -1 <= v <= 1.
Proof.
  intros Hwf Hb. apply MiniMax_rec_total; [assumption|assumption|].
  pose proof (count_piece_le is_None b) as Hle.
  unfold board_wf in Hwf. unfold count_empty, search_fuel.
  pose proof cells_size. lia.
Qed.

(** A call for a cell that does not exist throws before it touches the
    board. *)
Lemma MiniMax_rec_out_of_bounds (fuel : nat) (b : Board) (depth placed : Z)
    (isMax : bool) :
  in_bounds placed = false ->
  MiniMax_rec (S fuel) depth placed isMax b = (Raise out_of_range, b).
Proof.
  intros Hb. cbn [MiniMax_rec].
  apply bind_Raise. unfold read. now rewrite CheckWin_out_of_bounds.
Qed.

(** ** [FindBestMove] *)

Lemma score_total (b : Board) (piece : EPiece.t) (i : Z) :
  board_wf b -> in_bounds i = true ->
  exists v, score b piece i = Ok v /\ -1 <= v <= 1 /\
            MiniMax 0 i false (<[Z.to_nat i := piece]> b) =
            (Ok v, <[Z.to_nat i := piece]> b).
Proof.
  intros Hwf Hi.
  destruct (MiniMax_total (<[Z.to_nat i := piece]> b) 0 i false
              (board_wf_insert b _ piece Hwf) Hi) as (v & Hv & Hr).
  exists v. unfold score. rewrite Hv. auto.
Qed.

Lemma FindBestMove_body_ok (piece : EPiece.t) (b : Board) (i : Z)
    (acc : Z * Z) :
  board_wf b -> in_bounds i = true ->
  exists acc',
    FindBestMove_body piece i acc b = (Ok acc', b) /\
    ((empty_cell b i /\
      exists v, score b piece i = Ok v /\ -1 <= v <= 1 /\
                acc' = if v >? fst acc then (v, i) else acc) \/
     (~ empty_cell b i /\ acc' = acc)).
Proof.
  intros Hwf Hi. unfold FindBestMove_body.
  destruct (get_at_in_bounds b i Hwf Hi) as (c & Hget & Hc).
  rewrite (bind_Ok _ _ _ _ _ Hget).
  destruct (EPiece_eqb_spec c EPiece.None) as [->|Hne].
  - destruct (score_total b piece i Hwf Hi) as (v & Hs & Hr & Hv).
    rewrite (bind_Ok _ _ _ _ _ (set_at_in_bounds b i piece Hwf Hi)).
    rewrite (bind_Ok _ _ _ _ _ Hv).
    rewrite (bind_Ok _ _ _ _ _
               (set_at_in_bounds _ i EPiece.None
                  (board_wf_insert b _ piece Hwf) Hi)).
    rewrite insert_restore by assumption.
    exists (if v >? fst acc then (v, i) else acc). split.
    + now destruct (v >? fst acc).
    + left. split; [split; assumption|]. exists v. auto.
  - exists acc. split; [reflexivity|]. right. split; [|reflexivity].
    intros [_ He]. congruence.
Qed.

Lemma best_upto_step (b : Board) (piece : EPiece.t) (i : Z) (acc acc' : Z * Z) :
  0 <= i ->
  best_upto b piece i acc ->
  (empty_cell b i /\
   exists v, score b piece i = Ok v /\ -1 <= v <= 1 /\
             acc' = if v >? fst acc then (v, i) else acc) \/
  (~ empty_cell b i /\ acc' = acc) ->
  best_upto b piece (i + 1) acc'.
Proof.
  intros Hi0 Hinv [(He & v & Hs & Hr & ->)|(Hne & ->)].
  - destruct Hinv as [(Hnone & ->)|(Hm & Hem & Hsm & Hrm & Hmax & Hfirst)].
    + cbn [fst]. destruct (Z.gtb_spec v (-1000)); [|lia].
      right. cbn [fst snd].
      refine (conj _ (conj He (conj Hs (conj Hr (conj _ _))))); [lia| |].
      * intros j Hj Hej. destruct (Z.eq_dec j i) as [->|].
        -- exists v. split; [assumption|lia].
        -- exfalso. apply (Hnone j); [lia|assumption].
      * intros j Hj Hej. exfalso. apply (Hnone j); [lia|assumption].
    + destruct (Z.gtb_spec v (fst acc)) as [Hgt|Hle].
      * right. cbn [fst snd].
        refine (conj _ (conj He (conj Hs (conj Hr (conj _ _))))); [lia| |].
        -- intros j Hj Hej. destruct (Z.eq_dec j i) as [->|].
           ++ exists v. split; [assumption|lia].
           ++ destruct (Hmax j ltac:(lia) Hej) as (vj & Hvj & Hle).
              exists vj. split; [assumption|lia].
        -- intros j Hj Hej.
           destruct (Hmax j ltac:(lia) Hej) as (vj & Hvj & Hle).
           exists vj. split; [assumption|lia].
      * right.
        refine (conj _ (conj Hem (conj Hsm (conj Hrm (conj _ Hfirst)))));
          [lia|].
        intros j Hj Hej. destruct (Z.eq_dec j i) as [->|].
        -- exists v. split; [assumption|lia].
        -- apply Hmax; [lia|assumption].
  - destruct Hinv as [(Hnone & ->)|(Hm & Hem & Hsm & Hrm & Hmax & Hfirst)].
    + left. split; [|reflexivity]. intros j Hj.
      destruct (Z.eq_dec j i) as [->|]; [assumption|apply Hnone; lia].
    + right.
      refine (conj _ (conj Hem (conj Hsm (conj Hrm (conj _ Hfirst)))));
        [lia|].
      intros j Hj Hej. destruct (Z.eq_dec j i) as [->|]; [contradiction|].
      apply Hmax; [lia|assumption].
Qed.

(** [FindBestMove] returns, and its answer is the move component of a pair
    satisfying [best_upto] for the whole board. *)
Lemma FindBestMove_spec (b : Board) (piece : EPiece.t) :
  board_wf b ->
  exists acc, FindBestMove b piece = Ok (snd acc) /\
              best_upto b piece board_size acc.
Proof.
  intros Hwf. unfold FindBestMove.
  destruct (for_loop_inv (best_upto b piece) (FindBestMove_body piece) b
              cells 0 (-1000, -1)) as (acc & Hloop & Hend).
  - left. split; [intros; lia|reflexivity].
  - intros i a Hi Hinv. rewrite cells_size in Hi.
    assert (Hbi : in_bounds i = true) by (apply in_bounds_true; lia).
    destruct (FindBestMove_body_ok piece b i a Hwf Hbi) as (a' & Hrun & Hcase).
    exists a'. split; [assumption|].
    apply (best_upto_step b piece i a a'); [lia|assumption|assumption].
  - exists acc. rewrite Hloop. split; [reflexivity|].
    now rewrite cells_size in Hend.
Qed.

Lemma empty_cell_range (b : Board) (j : Z) :
  empty_cell b j -> 0 <= j < board_size.
Proof. intros [Hj _]. now apply in_bounds_true. Qed.

(** ** Turns *)

Lemma set_board_same (s : App.t) : App.set_board (App.board s) s = s.
Proof. now destruct s. Qed.

Lemma same_game_refl (s : App.t) : same_game s s.
Proof. unfold same_game. auto. Qed.

Lemma at_Ok_set (b : Board) (i : Z) (c p : EPiece.t) :
  at_ b i = Ok c -> set_at i p b = (Ok tt, <[Z.to_nat i := p]> b).
Proof.
  intros Hat. apply at_Ok in Hat as [Hi Hc]. unfold set_at. rewrite Hi.
  apply lookup_lt_Some in Hc.
  destruct (Nat.ltb_spec (Z.to_nat i) (length b)); [reflexivity|lia].
Qed.

(** A player turn leaves the game as it is or places the mover's piece on
    the selected Empty cell. *)
Lemma HandlePlayerTurn_cases (pressed : bool) (tile : Z) (s s' : App.t)
    (r : result unit) :
  App.HandlePlayerTurn pressed tile s = (r, s') ->
  same_game s s' \/ placed_at s s' tile (App.currentTurn s).
Proof.
  unfold App.HandlePlayerTurn. destruct pressed.
  2:{ intros [= <- <-]. left. apply same_game_refl. }
  unfold bind at 1. unfold App.on_board at 1. unfold get_at, read.
  destruct (at_ (App.board s) tile) as [c| |] eqn:Hat;
    rewrite set_board_same;
    try (intros [= <- <-]; left; apply same_game_refl).
  destruct (EPiece_eqb_spec c EPiece.None) as [->|Hne].
  2:{ intros [= <- <-]. left. apply same_game_refl. }
  pose proof (at_Ok _ _ _ Hat) as [Hi Hc].
  unfold bind, modify, App.on_board, read.
  cbn [App.board App.set_placedPieces App.currentTurn].
  rewrite (at_Ok_set _ _ _ (App.currentTurn s) Hat).
  cbn [App.board App.set_board App.set_currentTurn App.currentTurn
       App.placedPieces App.aiNextmMove App.bGameEnded App.winningMove].
  destruct (CheckWin _ tile) as [w| |]; unfold useAi, App.StartAiThink, modify;
    intros [= <- <-]; right; (split; [split; assumption|]);
    cbn; auto.
Qed.

(** A computer turn leaves the game as it is or places the computer's piece
    on an Empty cell. *)
Lemma HandleAiTurn_cases (elapsed ready : bool) (s s' : App.t)
    (r : result unit) :
  App.HandleAiTurn elapsed ready s = (r, s') ->
  same_game s s' \/ exists move, placed_at s s' move computerPiece.
Proof.
  unfold App.HandleAiTurn. destruct elapsed.
  2:{ intros [= <- <-]. left. apply same_game_refl. }
  unfold bind at 1. unfold read at 1.
  destruct (App.aiNextmMove s) as [job|].
  2:{ intros [= <- <-]. left. apply same_game_refl. }
  destruct ready; cbn [negb].
  2:{ intros [= <- <-]. left. apply same_game_refl. }
  unfold bind at 1. unfold modify at 1. unfold bind at 1. unfold read at 1.
  destruct (FindBestMove (fst job) (snd job)) as [move| |];
    try (intros [= <- <-]; left; unfold same_game; cbn; auto).
  destruct (move =? -1); cbn [negb].
  { intros [= <- <-]. left. unfold same_game. cbn. auto. }
  unfold bind at 1. unfold App.on_board at 1. unfold get_at, read.
  cbn [App.board App.set_aiNextmMove].
  destruct (at_ (App.board s) move) as [c| |] eqn:Hat;
    try (intros [= <- <-]; left; unfold same_game; cbn; auto).
  destruct (EPiece_eqb_spec c EPiece.None) as [->|Hne].
  2:{ intros [= <- <-]. left. unfold same_game. cbn. auto. }
  pose proof (at_Ok _ _ _ Hat) as [Hi Hc].
  unfold bind, modify, App.on_board, read.
  cbn [App.board App.set_placedPieces App.set_board].
  rewrite (at_Ok_set _ _ _ computerPiece Hat).
  cbn [App.board App.set_board App.set_currentTurn App.currentTurn
       App.placedPieces App.aiNextmMove App.bGameEnded App.winningMove].
  destruct (CheckWin _ move) as [w| |];
    intros [= <- <-]; right; exists move; (split; [split; assumption|]);
    cbn; auto.
Qed.

Lemma other_turn_not_None (p : EPiece.t) : App.other_turn p <> EPiece.None.
Proof. now destruct p. Qed.

Lemma count_placed_fill (b : Board) (i : Z) (p : EPiece.t) :
  empty_cell b i -> p <> EPiece.None ->
  count_placed (<[Z.to_nat i := p]> b) = S (count_placed b).
Proof.
  intros [_ Hi] Hp. unfold count_placed.
  pose proof (count_piece_insert (fun q => negb (is_None q)) b
                (Z.to_nat i) _ p Hi) as H.
  cbv beta in H. change (is_None EPiece.None) with true in H.
  replace (is_None p) with false in H
    by (symmetry; now apply EPiece_eqb_neq).
  cbn [negb] in H. lia.
Qed.

Lemma counted_same_game (s s' : App.t) :
  counted s -> same_game s s' -> counted s'.
Proof.
  unfold counted, same_game. intros (Hwf & Hn & Ht) (-> & -> & ->). auto.
Qed.

Lemma counted_placed_at (s s' : App.t) (i : Z) (p : EPiece.t) :
  counted s -> placed_at s s' i p -> p <> EPiece.None -> counted s'.
Proof.
  unfold counted. intros (Hwf & Hn & Ht) (He & Hb & Hp & Hc) Hne.
  rewrite Hb, Hp, Hc. split; [now apply board_wf_insert|].
  split; [|apply other_turn_not_None].
  rewrite (count_placed_fill _ _ _ He Hne).
  pose proof (count_piece_le (fun q => negb (is_None q)) (App.board s)) as Hle.
  fold count_placed in Hle. unfold board_wf, board_size, boardWidth in Hwf.
  rewrite int_add_small; unfold int_range, int_half; lia.
Qed.

Lemma Reset_state (s : App.t) :
  App.Reset s =
  (Ok tt,
   App.Mk empty_board 0 EPiece.Cross (App.aiNextmMove s) false
     Datatypes.None).
Proof. reflexivity. Qed.

Lemma counted_Reset (s s' : App.t) (r : result unit) :
  App.Reset s = (r, s') -> counted s'.
Proof.
  rewrite Reset_state. intros [= <- <-]. unfold counted. cbn.
  repeat split; discriminate.
Qed.

Lemma reachable_counted (s : App.t) : reachable s -> counted s.
Proof.
  induction 1 as [s s' r Hr|s s' pressed tile r _ IH Hstep
                 |s s' elapsed ready r _ IH Hstep].
  - exact (counted_Reset _ _ _ Hr).
  - destruct (HandlePlayerTurn_cases _ _ _ _ _ Hstep) as [Hsame|Hplaced].
    + exact (counted_same_game _ _ IH Hsame).
    + apply (counted_placed_at _ _ _ _ IH Hplaced). apply IH.
  - destruct (HandleAiTurn_cases _ _ _ _ _ Hstep) as [Hsame|(move & Hplaced)].
    + exact (counted_same_game _ _ IH Hsame).
    + exact (counted_placed_at _ _ _ _ IH Hplaced computerPiece_not_None).
Qed.

(** The three outcomes of a click. *)
Lemma HandlePlayerTurn_outcomes (s : App.t) (tile : Z) :
  board_wf (App.board s) ->
  (in_bounds tile = false ->
   App.HandlePlayerTurn true tile s = (Raise out_of_range, s)) /\
  (in_bounds tile = true -> ~ empty_cell (App.board s) tile ->
   App.HandlePlayerTurn true tile s = (Ok tt, s)) /\
  (empty_cell (App.board s) tile ->
   exists s', App.HandlePlayerTurn true tile s = (Ok tt, s') /\
              placed_at s s' tile (App.currentTurn s)).
Proof.
  intros Hwf. unfold App.HandlePlayerTurn.
  split; [|split].
  - intros Hi. unfold bind, App.on_board, get_at, read.
    rewrite at_out_of_bounds by assumption. now rewrite set_board_same.
  - intros Hi Hne. unfold bind at 1. unfold App.on_board, get_at, read.
    destruct (at_in_bounds _ tile Hwf Hi) as (c & -> & Hc).
    rewrite set_board_same.
    destruct (EPiece_eqb_spec c EPiece.None) as [->|_]; [|reflexivity].
    exfalso. apply Hne. split; assumption.
  - intros He. pose proof He as [Hi Hc].
    destruct (CheckWin_total
                (<[Z.to_nat tile := App.currentTurn s]> (App.board s)) tile
                (board_wf_insert _ _ _ Hwf) Hi) as (w & Hw).
    assert (Hat : at_ (App.board s) tile = Ok EPiece.None)
      by (unfold at_; now rewrite Hi, Hc).
    unfold bind, modify, App.on_board, get_at, read. rewrite Hat.
    cbn [EPiece.eqb App.board App.set_board App.set_placedPieces
         App.currentTurn].
    rewrite (at_Ok_set _ _ _ (App.currentTurn s) Hat).
    cbn [App.board App.set_board App.set_currentTurn App.currentTurn
         App.placedPieces App.aiNextmMove App.bGameEnded App.winningMove].
    rewrite Hw. unfold useAi, App.StartAiThink, modify.
    eexists. split; [reflexivity|].
    split; [assumption|]. cbn. auto.
Qed.

(** Runs [HandleAiTurn] in the goal up to the value of [get()]. *)
Ltac take_result Hjob Hmove :=
  unfold App.HandleAiTurn;
  unfold bind at 1; unfold read at 1; rewrite Hjob; cbn [negb];
  unfold bind at 1; unfold modify at 1; unfold bind at 1; unfold read at 1;
  rewrite Hmove.

(** The outcomes of taking a completed search result. *)
Lemma HandleAiTurn_outcomes (s : App.t) (job : Board * EPiece.t) (move : Z) :
  board_wf (App.board s) ->
  App.aiNextmMove s = Some job ->
  FindBestMove (fst job) (snd job) = Ok move ->
  let taken := App.set_aiNextmMove Datatypes.None s in
  (move = -1 -> App.HandleAiTurn true true s = (Ok tt, taken)) /\
  (move <> -1 -> in_bounds move = false ->
   App.HandleAiTurn true true s = (Raise out_of_range, taken)) /\
  (in_bounds move = true -> ~ empty_cell (App.board s) move ->
   App.HandleAiTurn true true s = (Ok tt, taken)) /\
  (empty_cell (App.board s) move ->
   exists s', App.HandleAiTurn true true s = (Ok tt, s') /\
              placed_at s s' move computerPiece).
Proof.
  intros Hwf Hjob Hmove taken.
  assert (Hsentinel : forall m, in_bounds m = true -> (m =? -1) = false).
  { intros m Hm. apply Z.eqb_neq. intros ->. discriminate. }
  split; [|split; [|split]].
  - intros ->. take_result Hjob Hmove. reflexivity.
  - intros Hne Hi. take_result Hjob Hmove.
    apply Z.eqb_neq in Hne. rewrite Hne. cbn [negb].
    unfold bind, App.on_board, get_at, read.
    cbn [taken App.board App.set_aiNextmMove].
    rewrite at_out_of_bounds by assumption. reflexivity.
  - intros Hi Hocc. take_result Hjob Hmove.
    rewrite (Hsentinel move Hi). cbn [negb].
    unfold bind at 1. unfold App.on_board, get_at, read.
    cbn [taken App.board App.set_aiNextmMove].
    destruct (at_in_bounds _ move Hwf Hi) as (c & -> & Hc).
    destruct (EPiece_eqb_spec c EPiece.None) as [->|_]; [|reflexivity].
    exfalso. apply Hocc. split; assumption.
  - intros He. pose proof He as [Hi Hc]. take_result Hjob Hmove.
    rewrite (Hsentinel move Hi). cbn [negb].
    destruct (CheckWin_total
                (<[Z.to_nat move := computerPiece]> (App.board s)) move
                (board_wf_insert _ _ _ Hwf) Hi) as (w & Hw).
    assert (Hat : at_ (App.board s) move = Ok EPiece.None)
      by (unfold at_; now rewrite Hi, Hc).
    unfold bind, modify, App.on_board, get_at, read.
    cbn [taken App.board App.set_aiNextmMove]. rewrite Hat.
    cbn [EPiece.eqb App.board App.set_board App.set_placedPieces].
    rewrite (at_Ok_set _ _ _ computerPiece Hat).
    cbn [App.board App.set_board App.set_currentTurn App.currentTurn
         App.placedPieces App.aiNextmMove App.bGameEnded App.winningMove].
    rewrite Hw.
    eexists. split; [reflexivity|].
    split; [assumption|]. cbn. auto.
Qed.

(** ** Evaluations *)

Example CheckLine_column :
  CheckLine three_crosses EPiece.Cross (olc.Vi2d 0 2) (olc.Vi2d 0 (-1)) = Ok 3.
Proof. reflexivity. Qed.

Example CheckLine_off_grid :
  CheckLine three_crosses EPiece.Cross (olc.Vi2d 0 3) (olc.Vi2d 0 1) = Ok 0.
Proof. reflexivity. Qed.

Example CheckWin_off_board :
  CheckWin empty_board 9 = Raise out_of_range.
Proof. reflexivity. Qed.

(** Asked about an Empty cell, [CheckWin] counts Empty cells. *)
Example CheckWin_empty_cell :
  CheckWin empty_board 0 =
  Ok (Some (MkWinningMove EPiece.None (olc.Vi2d 0 0) (olc.Vi2d (-1) 0))).
Proof. reflexivity. Qed.

Example FindBestMove_last_cell :
  FindBestMove last_cell_board computerPiece = Ok 8.
Proof. vm_compute. reflexivity. Qed.

Example FindBestMove_full_board :
  FindBestMove (<[8%nat := EPiece.Cricle]> last_cell_board) computerPiece =
  Ok (-1).
Proof. vm_compute. reflexivity. Qed.

(** The computer completes its own line rather than block: on
    [O, O, Empty, X, X, Empty, Empty, Empty, Empty] it moves to cell 2. *)
Example FindBestMove_takes_win :
  FindBestMove
    [EPiece.Cricle; EPiece.Cricle; EPiece.None;
     EPiece.Cross; EPiece.Cross; EPiece.None;
     EPiece.None; EPiece.None; EPiece.None] computerPiece = Ok 2.
Proof. vm_compute. reflexivity. Qed.

Example int_add_overflow : int_add 2147483647 1 = -2147483648.
Proof. reflexivity. Qed.

(** ** The opening position, by evaluation *)

Lemma map_eq_lookup {A B : Type} (f : A -> B) (l : list A) (l' : list B)
    (k : nat) (a : A) (c : B) :
  map f l = l' -> l !! k = Some a -> l' !! k = Some c -> f a = c.
Proof.
  intros <-. revert k. induction l as [|h l IH]; intros k Ha Hc.
  - discriminate.
  - destruct k as [|k].
    + injection Ha as ->. now injection Hc.
    + exact (IH k Ha Hc).
Qed.

Lemma scores_empty_board :
  map (score empty_board computerPiece) [0; 1; 2; 3; 4; 5; 6; 7; 8] =
  [Ok 0; Ok 0; Ok 0; Ok 0; Ok 0; Ok 0; Ok 0; Ok 0; Ok 0].
Proof.
  vm_cast_no_check
    (eq_refl [Ok 0; Ok 0; Ok 0; Ok 0; Ok 0; Ok 0; Ok 0; Ok 0; Ok 0
              : result Z]).
Qed.

Lemma score_empty_board (i : Z) :
  in_bounds i = true -> score empty_board computerPiece i = Ok 0.
Proof.
  intros Hi. apply in_bounds_true in Hi.
  unfold board_size, boardWidth in Hi.
  apply (map_eq_lookup _ _ _ (Z.to_nat i) i (Ok 0) scores_empty_board).
  - assert (Hc : i = 0 \/ i = 1 \/ i = 2 \/ i = 3 \/ i = 4 \/ i = 5 \/
                 i = 6 \/ i = 7 \/ i = 8) by lia.
    repeat (destruct Hc as [-> | Hc]; [reflexivity|]). now subst i.
  - assert (Hc : i = 0 \/ i = 1 \/ i = 2 \/ i = 3 \/ i = 4 \/ i = 5 \/
                 i = 6 \/ i = 7 \/ i = 8) by lia.
    repeat (destruct Hc as [-> | Hc]; [reflexivity|]). now subst i.
Qed.

(** With all scores equal, the scan keeps the first cell. *)
Lemma FindBestMove_empty_board :
  FindBestMove empty_board computerPiece = Ok 0.
Proof.
  destruct (FindBestMove_spec empty_board computerPiece eq_refl)
    as (acc & Hres & Hbest).
  assert (H0 : empty_cell empty_board 0) by (split; reflexivity).
  destruct Hbest as [(Hnone & _)|(Hm & Hem & Hsm & _ & _ & Hfirst)].
  - exfalso. apply (Hnone 0); [unfold board_size, boardWidth; lia|exact H0].
  - rewrite Hres. f_equal.
    destruct (Z.eq_dec (snd acc) 0) as [|Hne]; [assumption|]. exfalso.
    destruct (Hfirst 0 ltac:(lia) H0) as (v0 & Hv0 & Hlt).
    rewrite (score_empty_board 0 eq_refl) in Hv0. injection Hv0 as <-.
    destruct Hem as [Hb _].
    rewrite (score_empty_board (snd acc) Hb) in Hsm. injection Hsm as Hsm.
    lia.
Qed.

(** ** The example boards *)

Lemma three_crosses_run :
  is_run three_crosses EPiece.Cross (olc.Vi2d 0 0) (olc.Vi2d 0 (-1)) 3.
Proof.
  intros j Hj.
  assert (Hc : j = 0 \/ j = 1 \/ j = 2) by lia.
  destruct Hc as [-> | [-> | ->]];
    (split; [unfold in_grid, shift, boardWidth; simpl; lia|reflexivity]).
Qed.

Lemma scenario_no_run (d : olc.vi2d) :
  In d families ->
  ~ on_winning_run scenario_board EPiece.Cross (pos_of 1) d.
Proof.
  destruct (CheckWin_spec scenario_board 1 eq_refl eq_refl)
    as (e & He & [[_ Hnone]|(k & d' & _ & Hwin & _)]).
  - injection He as <-. exact (Hnone d).
  - vm_compute in Hwin. discriminate.
Qed.

(** ** The first moves of a game *)

Lemma after_click_state :
  after_click =
  App.Mk (<[0%nat := EPiece.Cross]> empty_board) 1 EPiece.Cricle
    (Some (<[0%nat := EPiece.Cross]> empty_board, computerPiece)) false
    Datatypes.None.
Proof. reflexivity. Qed.

(** The computer answers a cross in the corner with the centre. *)
Lemma FindBestMove_reply :
  FindBestMove (App.board after_click) computerPiece = Ok 4.
Proof. vm_cast_no_check (eq_refl (Ok 4 : result Z)). Qed.

Lemma after_click_reachable : reachable after_click.
Proof.
  apply (reach_player (snd (App.Reset App.initial)) _ true 0
           (fst (App.HandlePlayerTurn true 0 (snd (App.Reset App.initial))))).
  - apply (reach_Reset App.initial _ (Ok tt)). reflexivity.
  - apply surjective_pairing.
Qed.

Lemma after_reply_reachable : reachable after_reply.
Proof.
  apply (reach_ai after_click _ true true
           (fst (App.HandleAiTurn true true after_click))).
  - exact after_click_reachable.
  - apply surjective_pairing.
Qed.

Lemma after_reply_placed :
  App.HandleAiTurn true true after_click = (Ok tt, after_reply) /\
  placed_at after_click after_reply 4 computerPiece.
Proof.
  destruct (HandleAiTurn_outcomes after_click
              (App.board after_click, computerPiece) 4 eq_refl eq_refl
              FindBestMove_reply) as (_ & _ & _ & Hput).
  destruct Hput as (s' & Hs' & Hp); [split; reflexivity|].
  unfold after_reply. rewrite Hs'. split; [reflexivity|exact Hp].
Qed.

Lemma after_reply_board :
  App.board after_reply =
  [EPiece.Cross; EPiece.None; EPiece.None;
   EPiece.None; EPiece.Cricle; EPiece.None;
   EPiece.None; EPiece.None; EPiece.None] /\
  App.placedPieces after_reply = 2 /\
  App.currentTurn after_reply = EPiece.Cross.
Proof.
  destruct after_reply_placed as (_ & _ & Hb & Hn & Ht).
  rewrite Hb, Hn, Ht. repeat split.
Qed.

(** * Part IV: the claims *)

(** C10. For every board, expected piece, starting position and search
    direction (of [int] components) with at least one nonzero component,
    [CheckLine] returns a count between 0 and [boardWidth]: the recursion
    ends within [line_fuel] calls, it never throws, and more fuel gives the
    same count. *)
Theorem CheckLine_terminates (b : Board) (expected : EPiece.t)
    (pos dir : olc.vi2d) :
  board_wf b ->
  int_range (olc.x dir) -> int_range (olc.y dir) ->
  olc.x dir <> 0 \/ olc.y dir <> 0 ->
  exists n,
    CheckLine b expected pos dir = Ok n /\ 0 <= n <= boardWidth /\
    forall fuel, (line_fuel <= fuel)%nat ->
                 CheckLine_rec fuel b expected pos dir = Ok n.
Proof.
  intros Hwf Hx Hy Hnz.
  destruct (CheckLine_rec_total b expected pos dir line_fuel Hwf Hx Hy Hnz
              (le_n _)) as (n & Hn & Hr).
  exists n. split; [exact Hn|]. split; [exact Hr|].
  intros fuel Hfuel. exact (CheckLine_rec_mono _ _ _ _ _ _ _ Hfuel Hn).
Qed.

(** The walk over the three crosses of the first column, from cell 2
    against [y]: three recursive calls and a fourth that leaves the grid. *)
Lemma CheckLine_terminates_witness :
  CheckLine_rec 3 three_crosses EPiece.Cross (olc.Vi2d 0 2) (olc.Vi2d 0 (-1)) =
  OutOfFuel /\
  exists n,
    CheckLine three_crosses EPiece.Cross (olc.Vi2d 0 2) (olc.Vi2d 0 (-1)) =
    Ok n /\
    0 <= n <= boardWidth /\
    forall fuel, (line_fuel <= fuel)%nat ->
                 CheckLine_rec fuel three_crosses EPiece.Cross (olc.Vi2d 0 2)
                   (olc.Vi2d 0 (-1)) = Ok n.
Proof.
  split; [reflexivity|].
  apply (CheckLine_terminates three_crosses EPiece.Cross (olc.Vi2d 0 2)
           (olc.Vi2d 0 (-1))).
  - reflexivity.
  - unfold int_range, int_half. simpl. lia.
  - unfold int_range, int_half. simpl. lia.
  - right. simpl. lia.
Defined.

(** C5, as amended.  On [X, X, Empty, O, O, Empty, Empty, Empty, Empty]
    with [piecesToWin = 3], [CheckWin(board, 1)] returns no winner; after a
    cross is placed at index 2, [CheckWin(board, 2)] returns the winning
    move with piece [Cross], direction [(0, -1)] and position [(0, 2)],
    the cell that was placed (index 2). *)
Theorem CheckWin_scenario :
  CheckWin scenario_board 1 = Ok Datatypes.None /\
  CheckWin three_crosses 2 =
  Ok (Some (MkWinningMove EPiece.Cross (olc.Vi2d 0 2) (olc.Vi2d 0 (-1)))) /\
  index_of (olc.Vi2d 0 2) = 2.
Proof. split; [|split]; reflexivity. Qed.

(** C5 as stated fails: the move returned for index 2 has neither the
    direction [(-1, 0)] nor a position at index 0. *)
Lemma CheckWin_scenario_counterexample :
  ~ (CheckWin scenario_board 1 = Ok Datatypes.None /\
     exists wm, CheckWin three_crosses 2 = Ok (Some wm) /\
                piece wm = EPiece.Cross /\
                direction wm = olc.Vi2d (-1) 0 /\
                index_of (position wm) = 0).
Proof.
  intros (_ & wm & Hwm & _ & Hdir & _).
  vm_compute in Hwm. injection Hwm as <-. discriminate.
Qed.

(** C1, as amended.  For every board with a run of at least [piecesToWin]
    cells of one piece along one of the four line families, [CheckWin]
    called with the index of any cell [q] of that run returns a winning
    move.  Its piece is the piece of the run, its position is [q] itself,
    and its direction is the negative direction of the first family, in the
    order horizontal, vertical, diagonal, anti-diagonal, in which [q] lies
    on a winning run; that family is the family of the given run unless an
    earlier one wins through [q] as well. *)
Theorem CheckWin_reports_placed_cell (b : Board) (e : EPiece.t)
    (a d : olc.vi2d) (len j : Z) :
  board_wf b -> In d families -> piecesToWin <= len ->
  is_run b e a d len -> 0 <= j < len ->
  let q := shift a d (- j) in
  exists (k : nat) (d' : olc.vi2d),
    families !! k = Some d' /\
    CheckWin b (index_of q) = Ok (Some (MkWinningMove e q d')) /\
    on_winning_run b e q d' /\
    (forall (k' : nat) (d'' : olc.vi2d),
       (k' < k)%nat -> families !! k' = Some d'' ->
       ~ on_winning_run b e q d'') /\
    (forall k0 : nat, families !! k0 = Some d -> (k <= k0)%nat).
Proof.
  intros Hwf Hd Hlen Hrun Hj q.
  assert (Hq : cell_is b e q) by (apply Hrun; assumption).
  assert (Hon : on_winning_run b e q d) by (exists a, len, j; auto).
  destruct Hq as [Hgrid Hcell].
  pose proof (in_grid_index q Hgrid) as Hb.
  destruct (CheckWin_spec b (index_of q) Hwf Hb)
    as (e' & He' & [[_ Hnone]|(k & d' & Hk & Hwin & Hrun' & Hfirst)]).
  - exfalso. rewrite pos_of_index_of in Hnone by assumption.
    rewrite Hcell in He'. injection He' as <-. exact (Hnone d Hd Hon).
  - rewrite pos_of_index_of in Hwin, Hrun', Hfirst by assumption.
    rewrite Hcell in He'. injection He' as <-.
    exists k, d'. repeat (split; [assumption|]).
    intros k0 Hk0. destruct (Nat.le_gt_cases k k0) as [|Hlt]; [assumption|].
    exfalso. exact (Hfirst k0 d Hlt Hk0 Hon).
Qed.

Lemma CheckWin_reports_placed_cell_witness :
  let q := shift (olc.Vi2d 0 0) (olc.Vi2d 0 (-1)) (- 2) in
  exists (k : nat) (d' : olc.vi2d),
    families !! k = Some d' /\
    CheckWin three_crosses (index_of q) =
    Ok (Some (MkWinningMove EPiece.Cross q d')) /\
    on_winning_run three_crosses EPiece.Cross q d' /\
    (forall (k' : nat) (d'' : olc.vi2d),
       (k' < k)%nat -> families !! k' = Some d'' ->
       ~ on_winning_run three_crosses EPiece.Cross q d'') /\
    (forall k0 : nat,
       families !! k0 = Some (olc.Vi2d 0 (-1)) -> (k <= k0)%nat).
Proof.
  apply (CheckWin_reports_placed_cell three_crosses EPiece.Cross
           (olc.Vi2d 0 0) (olc.Vi2d 0 (-1)) 3 2).
  - reflexivity.
  - simpl. tauto.
  - unfold piecesToWin. lia.
  - exact three_crosses_run.
  - lia.
Defined.

(** C1 as stated fails: asked about the last cell of the run 0, 1, 2,
    whose extremal cell in the negative direction is [(0, 0)], [CheckWin]
    answers with position [(0, 2)]. *)
Lemma CheckWin_anchor_counterexample :
  ~ (forall (b : Board) (e : EPiece.t) (a d : olc.vi2d) (len j : Z),
       board_wf b -> In d families -> piecesToWin <= len ->
       is_run b e a d len -> 0 <= j < len ->
       CheckWin b (index_of (shift a d (- j))) =
       Ok (Some (MkWinningMove e a d))).
Proof.
  intros H.
  specialize (H three_crosses EPiece.Cross (olc.Vi2d 0 0) (olc.Vi2d 0 (-1))
                3 2 eq_refl).
  assert (Hwin : CheckWin three_crosses 2 =
                 Ok (Some (MkWinningMove EPiece.Cross (olc.Vi2d 0 0)
                             (olc.Vi2d 0 (-1))))).
  { apply H.
    - simpl. tauto.
    - unfold piecesToWin. lia.
    - exact three_crosses_run.
    - lia. }
  vm_compute in Hwin. discriminate.
Qed.

(** C2.  For every board and every placed index, if the placed cell does
    not lie on a run of at least [piecesToWin] cells of its own piece in
    any of the four direction families, [CheckWin] returns no winner. *)
Theorem CheckWin_none_without_run (b : Board) (placed : Z) (e : EPiece.t) :
  board_wf b -> in_bounds placed = true ->
  b !! Z.to_nat placed = Some e ->
  (forall d, In d families -> ~ on_winning_run b e (pos_of placed) d) ->
  CheckWin b placed = Ok Datatypes.None.
Proof.
  intros Hwf Hb He Hnone.
  destruct (CheckWin_spec b placed Hwf Hb)
    as (e' & He' & [[Hres _]|(k & d & Hk & _ & Hrun & _)]).
  - exact Hres.
  - exfalso. rewrite He in He'. injection He' as <-.
    apply (Hnone d); [|assumption].
    apply list_elem_of_lookup_2 in Hk. now apply list_elem_of_In.
Qed.

Lemma CheckWin_none_without_run_witness :
  CheckWin scenario_board 1 = Ok Datatypes.None.
Proof.
  apply (CheckWin_none_without_run scenario_board 1 EPiece.Cross).
  - reflexivity.
  - reflexivity.
  - reflexivity.
  - exact scenario_no_run.
Defined.

(** C3.  For every board with at least one Empty cell and every mover
    piece, [FindBestMove] returns the smallest index of an Empty cell whose
    score equals the maximum of the scores of all Empty cells. *)
Theorem FindBestMove_first_maximum (b : Board) (piece : EPiece.t) :
  board_wf b -> (exists j, empty_cell b j) ->
  exists m v,
    FindBestMove b piece = Ok m /\ empty_cell b m /\
    score b piece m = Ok v /\
    (forall j, empty_cell b j ->
       exists vj, score b piece j = Ok vj /\ vj <= v) /\
    (forall j, empty_cell b j -> score b piece j = Ok v -> m <= j).
Proof.
  intros Hwf (j0 & Hj0).
  destruct (FindBestMove_spec b piece Hwf) as (acc & Hres & Hbest).
  destruct Hbest as [(Hnone & _)|(Hm & Hem & Hsm & _ & Hmax & Hfirst)].
  { exfalso. exact (Hnone j0 (empty_cell_range b j0 Hj0) Hj0). }
  exists (snd acc), (fst acc).
  refine (conj Hres (conj Hem (conj Hsm (conj _ _)))).
  - intros j Hj. exact (Hmax j (empty_cell_range b j Hj) Hj).
  - intros j Hj Hs. destruct (Z_le_dec (snd acc) j) as [|Hlt]; [assumption|].
    exfalso. pose proof (empty_cell_range b j Hj) as Hr.
    destruct (Hfirst j ltac:(lia) Hj) as (vj & Hvj & Hlt').
    rewrite Hs in Hvj. injection Hvj as <-. lia.
Qed.

(** On the empty board all nine cells are Empty and have the same score
    ([score_empty_board]), so the choice is made by the tie-break alone. *)
Lemma FindBestMove_first_maximum_witness :
  (forall j, in_bounds j = true ->
     empty_cell empty_board j /\ score empty_board computerPiece j = Ok 0) /\
  exists m v,
    FindBestMove empty_board computerPiece = Ok m /\
    empty_cell empty_board m /\
    score empty_board computerPiece m = Ok v /\
    (forall j, empty_cell empty_board j ->
       exists vj, score empty_board computerPiece j = Ok vj /\ vj <= v) /\
    (forall j, empty_cell empty_board j ->
       score empty_board computerPiece j = Ok v -> m <= j).
Proof.
  split.
  - intros j Hj. split; [|exact (score_empty_board j Hj)].
    split; [exact Hj|]. apply in_bounds_true in Hj.
    unfold board_size, boardWidth in Hj. unfold empty_board.
    apply lookup_replicate. split; [reflexivity|].
    unfold cells, board_size, boardWidth. lia.
  - apply (FindBestMove_first_maximum empty_board computerPiece).
    + reflexivity.
    + exists 4. split; reflexivity.
Defined.

(** C4.  [FindBestMove] always returns; it returns the sentinel [-1] if
    and only if the board has no Empty cell, and otherwise an index in
    [0, boardWidth * boardWidth) whose cell is Empty in the board it was
    given. *)
Theorem FindBestMove_sentinel (b : Board) (piece : EPiece.t) :
  board_wf b ->
  exists m,
    FindBestMove b piece = Ok m /\
    (m = -1 <-> ~ exists j, empty_cell b j) /\
    (m <> -1 -> 0 <= m < board_size /\ empty_cell b m).
Proof.
  intros Hwf.
  destruct (FindBestMove_spec b piece Hwf) as (acc & Hres & Hbest).
  exists (snd acc). split; [exact Hres|].
  destruct Hbest as [(Hnone & ->)|(Hm & Hem & _)]; cbn [snd].
  - split; [|intros Hne; now contradiction Hne].
    split; [|reflexivity].
    intros _ (j & Hj). exact (Hnone j (empty_cell_range b j Hj) Hj).
  - split.
    + split; [lia|]. intros Hnone. exfalso. apply Hnone. eauto.
    + intros _. split; [lia|assumption].
Qed.

Lemma FindBestMove_sentinel_witness :
  exists m,
    FindBestMove empty_board EPiece.Cricle = Ok m /\
    (m = -1 <-> ~ exists j, empty_cell empty_board j) /\
    (m <> -1 -> 0 <= m < board_size /\ empty_cell empty_board m).
Proof.
  apply (FindBestMove_sentinel empty_board EPiece.Cricle).
  reflexivity.
Defined.

(** C6, as amended.  On the 3x3 board with [piecesToWin = 3],
    [FindBestMove] for the computer's piece on the empty board returns
    index 0.  Every cell, the centre included, has score 0, so the centre
    is score-optimal, and the first index is the one returned. *)
Theorem FindBestMove_opening :
  FindBestMove empty_board computerPiece = Ok 0 /\
  (forall i, in_bounds i = true -> score empty_board computerPiece i = Ok 0).
Proof.
  split; [exact FindBestMove_empty_board|exact score_empty_board].
Qed.

(** C6 as stated fails: the move for the empty board is not the centre. *)
Lemma FindBestMove_opening_counterexample :
  FindBestMove empty_board computerPiece <> Ok 4.
Proof. rewrite FindBestMove_empty_board. discriminate. Qed.

(** C7.  A call of [MiniMax] leaves the board it was given as it found it,
    at any depth of the recursion, and returns a score when the placed
    index is a cell (the same score whatever fuel is left over); starting a
    search copies the live board and does not change it. *)
Theorem search_restores_board (b : Board) (depth placed : Z) (isMax : bool) :
  board_wf b ->
  snd (MiniMax depth placed isMax b) = b /\
  (in_bounds placed = true ->
   exists v, MiniMax depth placed isMax b = (Ok v, b) /\
             forall fuel, (search_fuel <= fuel)%nat ->
               MiniMax_rec fuel depth placed isMax b = (Ok v, b)) /\
  (forall fuel, (count_empty b < fuel)%nat ->
     snd (MiniMax_rec fuel depth placed isMax b) = b) /\
  (forall s : App.t,
     App.board (snd (App.StartAiThink s)) = App.board s /\
     App.aiNextmMove (snd (App.StartAiThink s)) =
     Some (App.board s, computerPiece)).
Proof.
  intros Hwf.
  assert (Hrec : forall fuel, (count_empty b < fuel)%nat ->
            snd (MiniMax_rec fuel depth placed isMax b) = b).
  { intros fuel Hfuel. destruct (in_bounds placed) eqn:Hb.
    - destruct (MiniMax_rec_total fuel b depth placed isMax Hwf Hb Hfuel)
        as (v & -> & _). reflexivity.
    - destruct fuel as [|f]; [lia|].
      now rewrite MiniMax_rec_out_of_bounds. }
  split; [|split; [|split]].
  - apply Hrec. pose proof (count_piece_le is_None b) as Hle.
    unfold board_wf in Hwf. unfold count_empty, search_fuel.
    pose proof cells_size. lia.
  - intros Hb. destruct (MiniMax_total b depth placed isMax Hwf Hb)
      as (v & Hv & _).
    exists v. split; [exact Hv|]. intros fuel Hfuel.
    exact (MiniMax_rec_mono _ _ _ _ _ _ _ _ Hfuel Hv).
  - exact Hrec.
  - intros s. split; reflexivity.
Qed.

Lemma search_restores_board_witness :
  snd (MiniMax 0 8 false last_cell_board) = last_cell_board /\
  (in_bounds 8 = true ->
   exists v, MiniMax 0 8 false last_cell_board = (Ok v, last_cell_board) /\
             forall fuel, (search_fuel <= fuel)%nat ->
               MiniMax_rec fuel 0 8 false last_cell_board =
               (Ok v, last_cell_board)) /\
  (forall fuel, (count_empty last_cell_board < fuel)%nat ->
     snd (MiniMax_rec fuel 0 8 false last_cell_board) = last_cell_board) /\
  (forall s : App.t,
     App.board (snd (App.StartAiThink s)) = App.board s /\
     App.aiNextmMove (snd (App.StartAiThink s)) =
     Some (App.board s, computerPiece)).
Proof.
  apply (search_restores_board last_cell_board 0 8 false).
  reflexivity.
Defined.

(** C8.  In every state the game reaches, by [Reset], player turns and
    computer turns in any order and with any input, the number of
    non-Empty cells of the board equals [placedPieces]. *)
Theorem placed_count_invariant (s : App.t) :
  reachable s ->
  Z.of_nat (count_placed (App.board s)) = App.placedPieces s.
Proof. intros Hs. apply (reachable_counted s Hs). Qed.

(** After the player's cross on cell 0 and the computer's circle on cell
    4, two cells are taken and the counter is 2. *)
Lemma placed_count_invariant_witness :
  reachable after_reply /\
  App.placedPieces after_reply = 2 /\
  Z.of_nat (count_placed (App.board after_reply)) =
  App.placedPieces after_reply.
Proof.
  split; [exact after_reply_reachable|].
  split; [exact (proj1 (proj2 after_reply_board))|].
  apply (placed_count_invariant after_reply).
  exact after_reply_reachable.
Defined.

(** C9, as amended.  A click on an index outside
    [0, boardWidth * boardWidth) throws [std::out_of_range] before any
    member is changed; a click on a cell that is not Empty returns normally,
    signals nothing, and changes nothing; a click on an Empty cell returns
    normally with the cell set to the mover's piece, the placement count
    incremented and the turn passed on.  The result of a pending search is
    never out of range: it is the sentinel [-1] or the index of a cell, and
    [HandleAiTurn] takes it without a throw.  It skips the sentinel and a
    cell that is not Empty, changing nothing but the future, which it
    empties; on an Empty cell it places the computer's piece as a click
    places the mover's. *)
Theorem placement_outcomes (s : App.t) (i : Z) :
  board_wf (App.board s) ->
  (in_bounds i = false ->
   App.HandlePlayerTurn true i s = (Raise out_of_range, s)) /\
  (in_bounds i = true -> ~ empty_cell (App.board s) i ->
   App.HandlePlayerTurn true i s = (Ok tt, s)) /\
  (empty_cell (App.board s) i ->
   exists s', App.HandlePlayerTurn true i s = (Ok tt, s') /\
              placed_at s s' i (App.currentTurn s)) /\
  (forall job : Board * EPiece.t,
     App.aiNextmMove s = Some job -> board_wf (fst job) ->
     exists m, FindBestMove (fst job) (snd job) = Ok m /\
               (m = -1 \/ in_bounds m = true) /\
               fst (App.HandleAiTurn true true s) = Ok tt) /\
  (forall job : Board * EPiece.t,
     App.aiNextmMove s = Some job ->
     FindBestMove (fst job) (snd job) = Ok i ->
     let taken := App.set_aiNextmMove Datatypes.None s in
     (i = -1 -> App.HandleAiTurn true true s = (Ok tt, taken)) /\
     (in_bounds i = true -> ~ empty_cell (App.board s) i ->
      App.HandleAiTurn true true s = (Ok tt, taken)) /\
     (empty_cell (App.board s) i ->
      exists s', App.HandleAiTurn true true s = (Ok tt, s') /\
                 placed_at s s' i computerPiece)) /\
  (forall s' p, placed_at s s' i p ->
     int_range (App.placedPieces s + 1) ->
     App.placedPieces s' = App.placedPieces s + 1).
Proof.
  intros Hwf.
  destruct (HandlePlayerTurn_outcomes s i Hwf) as (Hout & Hocc & Hput).
  refine (conj Hout (conj Hocc (conj Hput (conj _ (conj _ _))))).
  - intros job Hjob Hwfj.
    destruct (FindBestMove_spec (fst job) (snd job) Hwfj)
      as (acc & Hres & Hbest).
    exists (snd acc). split; [exact Hres|].
    destruct (HandleAiTurn_outcomes s job (snd acc) Hwf Hjob Hres)
      as (Hskip & _ & Hocc' & Hput').
    destruct Hbest as [(_ & ->)|(Hm & _)]; cbn [snd] in *.
    + split; [now left|]. now rewrite Hskip.
    + assert (Hi : in_bounds (snd acc) = true) by (apply in_bounds_true; lia).
      split; [now right|].
      destruct (at_in_bounds _ (snd acc) Hwf Hi) as (c & _ & Hc).
      destruct (EPiece_eqb_spec c EPiece.None) as [->|Hne].
      * destruct Hput' as (s' & -> & _); [split; assumption|reflexivity].
      * rewrite Hocc'; [reflexivity|assumption|].
        intros [_ He]. congruence.
  - intros job Hjob Hmove.
    destruct (HandleAiTurn_outcomes s job i Hwf Hjob Hmove)
      as (Hskip & _ & Hocc' & Hput').
    exact (conj Hskip (conj Hocc' Hput')).
  - intros s' p (_ & _ & Hn & _) Hr. rewrite Hn. now apply int_add_small.
Qed.

(** After the player's first click the search is pending.  A click on
    index 9 throws, a click on the cross of cell 0 is ignored, a click on
    cell 1 places a piece; the search returns cell 4, and taking its result
    places the computer's piece there.  Either placement makes the counter
    2. *)
Lemma placement_outcomes_witness :
  let s := after_click in
  App.HandlePlayerTurn true 9 s = (Raise out_of_range, s) /\
  App.HandlePlayerTurn true 0 s = (Ok tt, s) /\
  (exists s', App.HandlePlayerTurn true 1 s = (Ok tt, s') /\
              placed_at s s' 1 (App.currentTurn s) /\
              App.placedPieces s' = 2) /\
  (exists m, FindBestMove (App.board s) computerPiece = Ok m /\
             (m = -1 \/ in_bounds m = true) /\
             fst (App.HandleAiTurn true true s) = Ok tt) /\
  (exists s', App.HandleAiTurn true true s = (Ok tt, s') /\
              placed_at s s' 4 computerPiece /\
              App.placedPieces s' = 2).
Proof.
  intros s.
  assert (Hwf : board_wf (App.board s)) by reflexivity.
  assert (Hjob : App.aiNextmMove s = Some (App.board s, computerPiece))
    by reflexivity.
  assert (Hpp : App.placedPieces s = 1) by reflexivity.
  destruct (placement_outcomes s 9 Hwf) as (Hout & _).
  destruct (placement_outcomes s 0 Hwf) as (_ & Hocc & _).
  destruct (placement_outcomes s 1 Hwf) as (_ & _ & Hput & _ & _ & Hn).
  destruct (placement_outcomes s 4 Hwf) as (_ & _ & _ & Hres & Hai & Hn').
  destruct (Hai _ Hjob FindBestMove_reply) as (_ & _ & Hput').
  split; [apply Hout; reflexivity|].
  split; [apply Hocc; [reflexivity|intros [_ Hc]; discriminate]|].
  split; [|split].
  - destruct Hput as (s' & Hs' & Hp); [split; reflexivity|].
    exists s'. split; [exact Hs'|]. split; [exact Hp|].
    rewrite (Hn s' _ Hp); rewrite Hpp; [reflexivity|].
    unfold int_range, int_half. lia.
  - exact (Hres _ Hjob Hwf).
  - destruct Hput' as (s' & Hs' & Hp); [split; reflexivity|].
    exists s'. split; [exact Hs'|]. split; [exact Hp|].
    rewrite (Hn' s' _ Hp); rewrite Hpp; [reflexivity|].
    unfold int_range, int_half. lia.
Defined.

(** C9 as stated fails: a click on an occupied cell is not reported as a
    failure.  After the player's cross on cell 0 and the computer's reply,
    a second click on cell 0 returns normally, as a successful placement
    does. *)
Lemma occupied_cell_counterexample :
  ~ (forall (s : App.t) (i : Z),
       reachable s -> in_bounds i = true ->
       ~ empty_cell (App.board s) i ->
       exists e, fst (App.HandlePlayerTurn true i s) = Raise e).
Proof.
  intros H.
  destruct after_reply_board as (Hb & _).
  assert (Hocc : ~ empty_cell (App.board after_reply) 0).
  { intros [_ Hc]. rewrite Hb in Hc. discriminate. }
  destruct (H after_reply 0 after_reply_reachable eq_refl Hocc) as (e & He).
  destruct (HandlePlayerTurn_outcomes after_reply 0
              (proj1 (reachable_counted _ after_reply_reachable)))
    as (_ & Hsame & _).
  rewrite (Hsame eq_refl Hocc) in He. cbn [fst] in He. discriminate He.
Qed.

(** * Part V: further properties *)

(** ** [CheckLine] *)

(** X1.  [CheckLine] along one of the eight neighbour directions returns
    the number of consecutive cells holding [expected], counted from [pos]
    up to the first cell that is off the grid or holds something else. *)
Theorem CheckLine_counts (b : Board) (e : EPiece.t) (p d : olc.vi2d) :
  board_wf b -> unit_dir d -> olc.x d <> 0 \/ olc.y d <> 0 ->
  exists n,
    CheckLine b e p d = Ok n /\
    (forall j, 0 <= j < n -> cell_is b e (shift p d j)) /\
    ~ cell_is b e (shift p d n).
Proof.
  intros Hwf Hd Hnz.
  destruct (unit_dir_total b e p d Hwf Hd Hnz) as (n & Hn & _).
  destruct (CheckLine_rec_run b e d Hwf Hd _ _ _ Hn) as (_ & Hcells & Hend).
  exists n. auto.
Qed.

Lemma CheckLine_counts_witness :
  exists n,
    CheckLine three_crosses EPiece.Cross (olc.Vi2d 0 2) (olc.Vi2d 0 (-1)) =
    Ok n /\
    (forall j, 0 <= j < n ->
       cell_is three_crosses EPiece.Cross
         (shift (olc.Vi2d 0 2) (olc.Vi2d 0 (-1)) j)) /\
    ~ cell_is three_crosses EPiece.Cross
        (shift (olc.Vi2d 0 2) (olc.Vi2d 0 (-1)) n).
Proof.
  apply (CheckLine_counts three_crosses EPiece.Cross (olc.Vi2d 0 2)
           (olc.Vi2d 0 (-1))).
  - reflexivity.
  - unfold unit_dir. simpl. lia.
  - right. simpl. lia.
Defined.

(** ** [WindowPosToBoardIdx] *)

Lemma int_mul_small (a b : Z) : int_range (a * b) -> int_mul a b = a * b.
Proof. apply int_wrap_small. Qed.

(** X2.  For a pointer inside the window, [WindowPosToBoardIdx] is the
    index of a cell, and the position [CheckWin] derives from that index
    is the tile under the pointer, [(x / tileSize, y / tileSize)]. *)
Theorem WindowPosToBoardIdx_tile (p : olc.vi2d) :
  mouse_in_window p ->
  in_bounds (WindowPosToBoardIdx p) = true /\
  pos_of (WindowPosToBoardIdx p) =
  olc.Vi2d (olc.x p / tileSize) (olc.y p / tileSize).
Proof.
  unfold mouse_in_window, boardWidth, tileSize. intros [Hx Hy].
  unfold WindowPosToBoardIdx, tileSize, boardWidth.
  rewrite !Z.quot_div_nonneg by lia.
  pose proof (Z.div_pos (olc.x p) 32 ltac:(lia) ltac:(lia)).
  pose proof (Z.div_lt_upper_bound (olc.x p) 32 3 ltac:(lia) ltac:(lia)).
  pose proof (Z.div_pos (olc.y p) 32 ltac:(lia) ltac:(lia)).
  pose proof (Z.div_lt_upper_bound (olc.y p) 32 3 ltac:(lia) ltac:(lia)).
  rewrite int_mul_small by (unfold int_range, int_half; lia).
  rewrite int_add_small by (unfold int_range, int_half; lia).
  change (olc.x p / 32 * 3 + olc.y p / 32)
    with (index_of (olc.Vi2d (olc.x p / 32) (olc.y p / 32))).
  assert (Hg : in_grid (olc.Vi2d (olc.x p / 32) (olc.y p / 32)))
    by (unfold in_grid, boardWidth; simpl; lia).
  split; [now apply in_grid_index|now apply pos_of_index_of].
Qed.

Lemma WindowPosToBoardIdx_tile_witness :
  in_bounds (WindowPosToBoardIdx (olc.Vi2d 40 70)) = true /\
  pos_of (WindowPosToBoardIdx (olc.Vi2d 40 70)) =
  olc.Vi2d (40 / tileSize) (70 / tileSize).
Proof.
  apply (WindowPosToBoardIdx_tile (olc.Vi2d 40 70)).
  unfold mouse_in_window, boardWidth, tileSize. simpl. lia.
Defined.

(** ** [DrawWinningLine] *)

Lemma families_cases (d : olc.vi2d) :
  In d families ->
  d = olc.Vi2d (-1) 0 \/ d = olc.Vi2d 0 (-1) \/
  d = olc.Vi2d (-1) (-1) \/ d = olc.Vi2d (-1) 1.
Proof. simpl. intuition auto. Qed.

(** A winning run on the board is a whole line. *)
Lemma winning_run_line (b : Board) (e : EPiece.t) (q d : olc.vi2d) :
  In d families -> on_winning_run b e q d ->
  is_run b e (line_start d q) d piecesToWin /\
  exists j, 0 <= j < piecesToWin /\ q = shift (line_start d q) d (- j).
Proof.
  intros Hd (a & len & j & Hlen & Hrun & Hj & ->).
  unfold piecesToWin in *.
  pose proof (Hrun 0 ltac:(lia)) as [H0 _].
  pose proof (Hrun 2 ltac:(lia)) as [H2 _].
  assert (Hj3 : j < 3).
  { destruct (Z_lt_dec j 3) as [|Hge]; [assumption|exfalso].
    pose proof (Hrun 3 ltac:(lia)) as [H3 _].
    destruct a as [ax ay].
    destruct (families_cases d Hd) as [-> | [-> | [-> | ->]]];
      unfold in_grid, shift, boardWidth in *; simpl in *; lia. }
  assert (Ha : line_start d (shift a d (- j)) = a).
  { destruct a as [ax ay].
    destruct (families_cases d Hd) as [-> | [-> | [-> | ->]]];
      unfold in_grid, shift, line_start, boardWidth in *; simpl in *;
      f_equal; lia. }
  rewrite Ha. split.
  - intros i Hi. apply Hrun. lia.
  - exists j. split; [lia|reflexivity].
Qed.

Lemma find_start_stop (f : nat) (b : Board) (wm : WinningMove)
    (s : olc.vi2d) :
  board_wf b -> In (direction wm) families -> in_grid s ->
  walk_safe (direction wm) s ->
  ~ cell_is b (piece wm) (shift s (direction wm) 1) ->
  find_start (S f) b wm s = Ok s.
Proof.
  intros Hwf Hd Hs Hsafe Hmiss. cbn [find_start].
  rewrite add_shift by (try assumption; apply (families_unit _ Hd)).
  set (c := shift s (direction wm) 1) in *.
  destruct ((olc.x c <? 0) || (olc.y c <? 0)) eqn:Hguard; [reflexivity|].
  assert (Hc : in_grid c).
  { apply orb_false_iff in Hguard as [Hx Hy].
    apply Z.ltb_ge in Hx, Hy. subst c. destruct s as [sx sy].
    unfold walk_safe in Hsafe.
    destruct (families_cases _ Hd) as [Hdir | [Hdir | [Hdir | Hdir]]];
      rewrite Hdir in *;
      unfold in_grid, shift, boardWidth in *; simpl in *; lia. }
  rewrite int_mul_small, int_add_small
    by (unfold in_grid, boardWidth, int_range, int_half in *; lia).
  fold (index_of c).
  destruct (at_in_bounds b _ Hwf (in_grid_index c Hc)) as (p & -> & Hp).
  cbn [rbind].
  destruct (EPiece_eqb_spec p (piece wm)) as [->|Hne]; [|reflexivity].
  exfalso. apply Hmiss. split; assumption.
Qed.

Lemma find_start_go (f : nat) (b : Board) (wm : WinningMove)
    (s : olc.vi2d) :
  In (direction wm) families -> in_grid s ->
  cell_is b (piece wm) (shift s (direction wm) 1) ->
  find_start (S f) b wm s = find_start f b wm (shift s (direction wm) 1).
Proof.
  intros Hd Hs [Hc Hp]. cbn [find_start].
  rewrite add_shift by (try assumption; apply (families_unit _ Hd)).
  set (c := shift s (direction wm) 1) in *.
  assert (Hguard : (olc.x c <? 0) || (olc.y c <? 0) = false).
  { apply orb_false_iff. rewrite !Z.ltb_ge. unfold in_grid in Hc. lia. }
  rewrite Hguard.
  rewrite int_mul_small, int_add_small
    by (unfold in_grid, boardWidth, int_range, int_half in *; lia).
  fold (index_of c). unfold at_. rewrite (in_grid_index c Hc), Hp.
  cbn [rbind]. now rewrite EPiece_eqb_refl.
Qed.

(** The walk ends on the last cell of the winner's piece along the
    direction. *)
Lemma find_start_spec (b : Board) (wm : WinningMove) :
  board_wf b -> In (direction wm) families ->
  forall (fuel : nat) (s : olc.vi2d),
    in_grid s -> walk_safe (direction wm) s ->
    walk_measure (direction wm) s < Z.of_nat fuel ->
    exists m,
      0 <= m /\
      find_start fuel b wm s = Ok (shift s (direction wm) m) /\
      (forall j, 1 <= j <= m ->
         cell_is b (piece wm) (shift s (direction wm) j)) /\
      ~ cell_is b (piece wm) (shift s (direction wm) (m + 1)).
Proof.
  intros Hwf Hd. induction fuel as [|f IH]; intros s Hs Hsafe Hmu.
  { exfalso. unfold walk_measure, in_grid in *.
    destruct (olc.x (direction wm) <? 0); lia. }
  destruct (cell_is_dec b (piece wm) (shift s (direction wm) 1))
    as [Hhit|Hmiss].
  - rewrite (find_start_go f b wm s Hd Hs Hhit).
    destruct (IH (shift s (direction wm) 1)) as (m & Hm & Hrun & Hcells & Hend).
    + apply Hhit.
    + unfold walk_safe in *. intros Hy. specialize (Hsafe Hy).
      destruct (families_cases _ Hd) as [Hdir | [Hdir | [Hdir | Hdir]]];
        rewrite Hdir in *; unfold shift; simpl in *; lia.
    + unfold walk_measure in *.
      destruct (families_cases _ Hd) as [Hdir | [Hdir | [Hdir | Hdir]]];
        rewrite Hdir in *; unfold shift; simpl in *; lia.
    + exists (1 + m). rewrite shift_shift in Hrun, Hend.
      split; [lia|]. split; [exact Hrun|]. split.
      * intros j Hj. destruct (Z.eq_dec j 1) as [->|]; [assumption|].
        specialize (Hcells (j - 1) ltac:(lia)).
        rewrite shift_shift in Hcells.
        now replace (1 + (j - 1)) with j in Hcells by lia.
      * now replace (1 + m + 1) with (1 + (m + 1)) by lia.
  - rewrite (find_start_stop f b wm s Hwf Hd Hs Hsafe Hmiss).
    exists 0. rewrite shift_0. split; [lia|]. split; [reflexivity|].
    split; [intros; lia|exact Hmiss].
Qed.

(** From a cell of a winning line the walk ends on [line_start]. *)
Lemma find_start_line (b : Board) (e : EPiece.t) (q d : olc.vi2d) :
  board_wf b -> In d families -> on_winning_run b e q d ->
  find_start line_fuel b (MkWinningMove e q d) q = Ok (line_start d q).
Proof.
  intros Hwf Hd Hon.
  destruct (winning_run_line b e q d Hd Hon) as (Hrun & j0 & Hj0 & Hq).
  unfold piecesToWin in *.
  set (a := line_start d q) in *.
  assert (Hqin : in_grid q) by (rewrite Hq; apply Hrun; unfold piecesToWin; lia).
  pose proof (Hrun 0 ltac:(unfold piecesToWin; lia)) as [Ha0 _].
  pose proof (Hrun 2 ltac:(unfold piecesToWin; lia)) as [Ha2 _].
  rewrite shift_0 in Ha0. change (- 0) with 0 in Ha0.
  assert (Hsafe : walk_safe d q).
  { unfold walk_safe. intros Hy. rewrite Hq. subst a.
    destruct (families_cases d Hd) as [-> | [-> | [-> | ->]]];
      try discriminate.
    unfold line_start, shift, boardWidth. simpl. lia. }
  destruct (find_start_spec b (MkWinningMove e q d) Hwf Hd line_fuel q
              Hqin Hsafe) as (m & Hm & Hres & Hcells & Hend).
  { unfold walk_measure, in_grid, boardWidth in *. cbn [direction].
    change (Z.of_nat line_fuel) with 4. destruct (olc.x d <? 0); lia. }
  cbn [direction piece] in *. rewrite Hres. f_equal.
  assert (Hmj : m = j0).
  { destruct (Z_lt_dec m j0) as [Hlt|Hge].
    - exfalso. apply Hend. rewrite Hq, shift_shift.
      replace (- j0 + (m + 1)) with (- (j0 - (m + 1))) by lia.
      apply Hrun. unfold piecesToWin. lia.
    - destruct (Z.eq_dec m j0) as [|Hne]; [assumption|exfalso].
      pose proof (Hcells (j0 + 1) ltac:(lia)) as [Hout _].
      rewrite Hq, shift_shift in Hout.
      replace (- j0 + (j0 + 1)) with 1 in Hout by lia.
      unfold shift in Ha2. cbn [olc.x olc.y] in Ha2.
      destruct a as [ax ay].
      destruct (families_cases d Hd) as [-> | [-> | [-> | ->]]];
        unfold in_grid, shift, boardWidth in *; simpl in *; lia. }
  rewrite Hmj, Hq, shift_shift.
  replace (- j0 + j0) with 0 by lia. apply shift_0.
Qed.

(** X3.  For a move returned by [CheckWin], [DrawWinningLine] makes
    exactly one call of [DrawLine], from edge to edge of the board: through
    the middle of the winning row or column, or along the winning
    diagonal; the [piecesToWin] cells under it all hold the winner's
    piece.  The walk to the start of the line never leaves the board. *)
Theorem DrawWinningLine_edge_to_edge (b : Board) (i : Z) (wm : WinningMove) :
  board_wf b -> in_bounds i = true ->
  CheckWin b i = Ok (Some wm) ->
  let q := position wm in
  let far := boardWidth * tileSize in
  let half := tileSize / 2 in
  is_run b (piece wm) (line_start (direction wm) q) (direction wm)
    piecesToWin /\
  ((direction wm = olc.Vi2d (-1) 0 /\
    DrawWinningLine b wm =
    Ok [MkDrawLine (olc.Vi2d 0 (olc.y q * tileSize + half))
                   (olc.Vi2d far (olc.y q * tileSize + half))]) \/
   (direction wm = olc.Vi2d 0 (-1) /\
    DrawWinningLine b wm =
    Ok [MkDrawLine (olc.Vi2d (olc.x q * tileSize + half) 0)
                   (olc.Vi2d (olc.x q * tileSize + half) far)]) \/
   (direction wm = olc.Vi2d (-1) (-1) /\
    DrawWinningLine b wm =
    Ok [MkDrawLine (olc.Vi2d 0 0) (olc.Vi2d far far)]) \/
   (direction wm = olc.Vi2d (-1) 1 /\
    DrawWinningLine b wm =
    Ok [MkDrawLine (olc.Vi2d 0 far) (olc.Vi2d far 0)])).
Proof.
  intros Hwf Hi Hwin q far half.
  destruct (CheckWin_spec b i Hwf Hi)
    as (e & He & [[Hnone _]|(k & d & Hk & Hsome & Hon & _)]).
  { rewrite Hnone in Hwin. discriminate. }
  rewrite Hsome in Hwin. injection Hwin as <-.
  cbn [piece position direction] in *.
  assert (Hd : In d families).
  { apply list_elem_of_lookup_2 in Hk. now apply list_elem_of_In. }
  destruct (winning_run_line b e (pos_of i) d Hd Hon) as (Hrun & _).
  split; [exact Hrun|].
  pose proof (find_start_line b e (pos_of i) d Hwf Hd Hon) as Hstart.
  pose proof (pos_of_in_grid i Hi) as Hq. fold q in Hq, Hstart.
  unfold DrawWinningLine. cbn [piece position direction].
  fold q. rewrite Hstart. cbn [rbind].
  destruct q as [qx qy]. unfold in_grid, boardWidth in Hq.
  cbn [olc.x olc.y] in Hq.
  assert (Hx : qx = 0 \/ qx = 1 \/ qx = 2) by lia.
  assert (Hy : qy = 0 \/ qy = 1 \/ qy = 2) by lia.
  destruct (families_cases d Hd) as [-> | [-> | [-> | ->]]].
  - left. split; [reflexivity|].
    destruct Hy as [-> | [-> | ->]]; reflexivity.
  - right; left. split; [reflexivity|].
    destruct Hx as [-> | [-> | ->]]; reflexivity.
  - right; right; left. split; reflexivity.
  - right; right; right. split; reflexivity.
Qed.

Lemma DrawWinningLine_edge_to_edge_witness :
  let wm := MkWinningMove EPiece.Cross (olc.Vi2d 0 2) (olc.Vi2d 0 (-1)) in
  let q := position wm in
  let far := boardWidth * tileSize in
  let half := tileSize / 2 in
  is_run three_crosses (piece wm) (line_start (direction wm) q)
    (direction wm) piecesToWin /\
  ((direction wm = olc.Vi2d (-1) 0 /\
    DrawWinningLine three_crosses wm =
    Ok [MkDrawLine (olc.Vi2d 0 (olc.y q * tileSize + half))
                   (olc.Vi2d far (olc.y q * tileSize + half))]) \/
   (direction wm = olc.Vi2d 0 (-1) /\
    DrawWinningLine three_crosses wm =
    Ok [MkDrawLine (olc.Vi2d (olc.x q * tileSize + half) 0)
                   (olc.Vi2d (olc.x q * tileSize + half) far)]) \/
   (direction wm = olc.Vi2d (-1) (-1) /\
    DrawWinningLine three_crosses wm =
    Ok [MkDrawLine (olc.Vi2d 0 0) (olc.Vi2d far far)]) \/
   (direction wm = olc.Vi2d (-1) 1 /\
    DrawWinningLine three_crosses wm =
    Ok [MkDrawLine (olc.Vi2d 0 far) (olc.Vi2d far 0)])).
Proof.
  apply (DrawWinningLine_edge_to_edge three_crosses 2
           (MkWinningMove EPiece.Cross (olc.Vi2d 0 2) (olc.Vi2d 0 (-1)))).
  - reflexivity.
  - reflexivity.
  - reflexivity.
Defined.

(** ** The local check of [CheckWin] *)

Lemma is_run_unchanged (b : Board) (i : Z) (p e : EPiece.t) (a d : olc.vi2d)
    (len : Z) :
  0 <= i ->
  is_run (<[Z.to_nat i := p]> b) e a d len ->
  (forall j, 0 <= j < len -> index_of (shift a d (- j)) <> i) ->
  is_run b e a d len.
Proof.
  intros Hi Hrun Hne j Hj. destruct (Hrun j Hj) as [Hg Hc].
  split; [assumption|].
  rewrite list_lookup_insert_ne in Hc; [assumption|].
  specialize (Hne j Hj). unfold in_grid, index_of, boardWidth in *.
  intros Heq. apply Hne. lia.
Qed.

(** On a board without a line, after a piece is put on an Empty cell,
    [CheckWin] for that cell finds a winner exactly when the board has a
    line. *)
Lemma placed_check (b : Board) (i : Z) (p : EPiece.t) :
  board_wf b -> no_line b -> empty_cell b i -> p <> EPiece.None ->
  let b' := <[Z.to_nat i := p]> b in
  (CheckWin b' i = Ok Datatypes.None /\ no_line b') \/
  (exists d, In d families /\
             CheckWin b' i = Ok (Some (MkWinningMove p (pos_of i) d)) /\
             on_winning_run b' p (pos_of i) d).
Proof.
  intros Hwf Hno [Hi Hcell] Hp b'.
  assert (Hwf' : board_wf b') by now apply board_wf_insert.
  assert (Hlook : b' !! Z.to_nat i = Some p).
  { apply list_lookup_insert_eq. now apply lookup_lt_Some in Hcell. }
  destruct (CheckWin_spec b' i Hwf' Hi)
    as (e & He & [[Hnone Hruns]|(k & d & Hk & Hsome & Hon & _)]).
  - rewrite Hlook in He. injection He as <-.
    left. split; [assumption|].
    intros e He (a & d & Hd & Hrun).
    pose proof (proj1 (in_bounds_true i) Hi) as Hi0.
    assert (Hthrough : forall j, 0 <= j < piecesToWin ->
              index_of (shift a d (- j)) = i -> False).
    { intros j Hj H. destruct (Hrun j Hj) as [Hg Hc].
      rewrite H, Hlook in Hc. injection Hc as <-.
      apply (Hruns d Hd). exists a, piecesToWin, j.
      split; [lia|]. split; [assumption|]. split; [assumption|].
      rewrite <- H. now apply pos_of_index_of. }
    apply (Hno e He). exists a, d. split; [assumption|].
    apply (is_run_unchanged b i p e a d piecesToWin); [lia|assumption|].
    intros j Hj H. exact (Hthrough j Hj H).
  - rewrite Hlook in He. injection He as <-.
    right. exists d. split; [|split; assumption].
    apply list_elem_of_lookup_2 in Hk. now apply list_elem_of_In.
Qed.

(** ** Exact outcomes of a placement *)

Lemma HandlePlayerTurn_places (s : App.t) (i : Z) (w : option WinningMove) :
  empty_cell (App.board s) i ->
  CheckWin (<[Z.to_nat i := App.currentTurn s]> (App.board s)) i = Ok w ->
  App.HandlePlayerTurn true i s =
  (Ok tt,
   App.Mk (<[Z.to_nat i := App.currentTurn s]> (App.board s))
     (int_add (App.placedPieces s) 1)
     (App.other_turn (App.currentTurn s))
     (Some (<[Z.to_nat i := App.currentTurn s]> (App.board s), computerPiece))
     (App.bGameEnded s) w).
Proof.
  intros [Hi Hc] Hw.
  assert (Hat : at_ (App.board s) i = Ok EPiece.None)
    by (unfold at_; now rewrite Hi, Hc).
  unfold App.HandlePlayerTurn.
  unfold bind, modify, App.on_board, get_at, read. rewrite Hat.
  cbn [EPiece.eqb App.board App.set_board App.set_placedPieces
       App.currentTurn].
  rewrite (at_Ok_set _ _ _ (App.currentTurn s) Hat).
  cbn [App.board App.set_board App.set_currentTurn App.currentTurn
       App.placedPieces App.aiNextmMove App.bGameEnded App.winningMove].
  rewrite Hw. reflexivity.
Qed.

Lemma HandleAiTurn_places (s : App.t) (job : Board * EPiece.t) (m : Z)
    (w : option WinningMove) :
  App.aiNextmMove s = Some job ->
  FindBestMove (fst job) (snd job) = Ok m ->
  empty_cell (App.board s) m ->
  CheckWin (<[Z.to_nat m := computerPiece]> (App.board s)) m = Ok w ->
  App.HandleAiTurn true true s =
  (Ok tt,
   App.Mk (<[Z.to_nat m := computerPiece]> (App.board s))
     (int_add (App.placedPieces s) 1)
     (App.other_turn (App.currentTurn s))
     Datatypes.None (App.bGameEnded s) w).
Proof.
  intros Hjob Hmove [Hi Hc] Hw.
  assert (Hat : at_ (App.board s) m = Ok EPiece.None)
    by (unfold at_; now rewrite Hi, Hc).
  assert (Hne : (m =? -1) = false).
  { apply Z.eqb_neq. intros ->. discriminate. }
  take_result Hjob Hmove. rewrite Hne. cbn [negb].
  unfold bind, modify, App.on_board, get_at, read.
  cbn [App.board App.set_aiNextmMove]. rewrite Hat.
  cbn [EPiece.eqb App.board App.set_board App.set_placedPieces].
  rewrite (at_Ok_set _ _ _ computerPiece Hat).
  cbn [App.board App.set_board App.set_currentTurn App.currentTurn
       App.placedPieces App.aiNextmMove App.bGameEnded App.winningMove].
  rewrite Hw. reflexivity.
Qed.

Lemma HandleAiTurn_waits (s : App.t) (job : Board * EPiece.t)
    (elapsed ready : bool) :
  App.aiNextmMove s = Some job -> elapsed && ready = false ->
  App.HandleAiTurn elapsed ready s = (Ok tt, s).
Proof.
  intros Hjob Hw. unfold App.HandleAiTurn.
  destruct elapsed; [|reflexivity]. destruct ready; [discriminate|].
  unfold bind, read. now rewrite Hjob.
Qed.

(** ** Frames *)

Lemma Loop_eta (s : Loop.t) : Loop.Mk (Loop.members s) (Loop.endMessage s) = s.
Proof. now destruct s. Qed.

Lemma on_members_run {A} (m : M App.t A) (s : Loop.t) (r : result A)
    (a' : App.t) :
  m (Loop.members s) = (r, a') ->
  Loop.on_members m s = (r, Loop.Mk a' (Loop.endMessage s)).
Proof. intros H. unfold Loop.on_members. now rewrite H. Qed.

Lemma turn_action_run (inp : Loop.input) (s : Loop.t) (r : result unit)
    (a' : App.t) :
  turn_action inp (Loop.members s) = (r, a') ->
  (if useAi && EPiece.eqb (App.currentTurn (Loop.members s)) computerPiece
   then Loop.on_members
          (App.HandleAiTurn (Loop.thinkElapsed inp) (Loop.ready inp))
   else Loop.on_members
          (App.HandlePlayerTurn (Loop.pressed inp)
             (WindowPosToBoardIdx (Loop.mouse inp)))) s =
  (r, Loop.Mk a' (Loop.endMessage s)).
Proof.
  unfold turn_action.
  destruct (useAi && EPiece.eqb (App.currentTurn (Loop.members s))
                       computerPiece);
    apply on_members_run.
Qed.

(** A running frame whose turn returns ends with [frame_end]. *)
Lemma OnUserUpdate_running (inp : Loop.input) (s : Loop.t) (a' : App.t) :
  App.bGameEnded (Loop.members s) = false ->
  turn_action inp (Loop.members s) = (Ok tt, a') ->
  Loop.OnUserUpdate inp s =
  (Ok true, frame_end (Loop.Mk a' (Loop.endMessage s))).
Proof.
  intros Hrun Hturn. unfold Loop.OnUserUpdate.
  unfold bind at 1. unfold read at 1. rewrite Hrun.
  unfold bind at 1. unfold read at 1.
  unfold bind at 1. rewrite (turn_action_run inp s _ _ Hturn).
  unfold frame_end, bind, read, modify, Loop.set_endMessage, Loop.on_members,
    ret.
  cbn [Loop.members Loop.endMessage].
  destruct (App.winningMove a') as [w|].
  - destruct (useAi && EPiece.eqb (piece w) computerPiece); reflexivity.
  - cbn [Loop.members Loop.endMessage].
    destruct (App.placedPieces a' >=? boardWidth * boardWidth); reflexivity.
Qed.

(** A running frame whose turn throws stops there. *)
Lemma OnUserUpdate_running_raise (inp : Loop.input) (s : Loop.t)
    (a' : App.t) (e : exn) :
  App.bGameEnded (Loop.members s) = false ->
  turn_action inp (Loop.members s) = (Raise e, a') ->
  Loop.OnUserUpdate inp s = (Raise e, Loop.Mk a' (Loop.endMessage s)).
Proof.
  intros Hrun Hturn. unfold Loop.OnUserUpdate.
  unfold bind at 1. unfold read at 1. rewrite Hrun.
  unfold bind at 1. unfold read at 1.
  unfold bind at 1. now rewrite (turn_action_run inp s _ _ Hturn).
Qed.

Lemma OnUserUpdate_restart (inp : Loop.input) (s : Loop.t) :
  App.bGameEnded (Loop.members s) = true ->
  Loop.restartElapsed inp = true ->
  Loop.OnUserUpdate inp s =
  (Ok true,
   Loop.Mk (App.Mk empty_board 0 EPiece.Cross
              (App.aiNextmMove (Loop.members s)) false Datatypes.None)
     (Loop.endMessage s)).
Proof.
  intros Hend Hre. unfold Loop.OnUserUpdate.
  unfold bind at 1. unfold read at 1. rewrite Hend, Hre.
  unfold bind. rewrite (on_members_run _ s _ _ (Reset_state _)).
  reflexivity.
Qed.

(** A frame of an ended game before the restart leaves the state as it
    is; its outcome is that of [DrawWinningLine]. *)
Lemma OnUserUpdate_ended (inp : Loop.input) (s : Loop.t) :
  App.bGameEnded (Loop.members s) = true ->
  Loop.restartElapsed inp = false ->
  Loop.OnUserUpdate inp s =
  match App.winningMove (Loop.members s) with
  | Some w =>
      match DrawWinningLine (App.board (Loop.members s)) w with
      | Ok _ => (Ok true, s)
      | Raise e => (Raise e, s)
      | OutOfFuel => (OutOfFuel, s)
      end
  | Datatypes.None => (Ok true, s)
  end.
Proof.
  intros Hend Hre. unfold Loop.OnUserUpdate.
  unfold bind at 1. unfold read at 1. rewrite Hend, Hre.
  unfold bind at 1. unfold read at 1.
  destruct (App.winningMove (Loop.members s)) as [w|]; [|reflexivity].
  unfold bind, read.
  destruct (DrawWinningLine (App.board (Loop.members s)) w); reflexivity.
Qed.

(** ** The invariant of a run *)

Lemma exists_unplaced (b : Board) :
  (count_placed b < length b)%nat -> exists n, b !! n = Some EPiece.None.
Proof.
  unfold count_placed. induction b as [|p b IH]; simpl; [lia|].
  destruct p; simpl.
  - intros _. now exists 0%nat.
  - intros H. destruct IH as (n & Hn); [lia|]. now exists (S n).
  - intros H. destruct IH as (n & Hn); [lia|]. now exists (S n).
Qed.

Lemma exists_empty_cell (b : Board) :
  board_wf b -> Z.of_nat (count_placed b) < board_size ->
  exists j, empty_cell b j.
Proof.
  intros Hwf Hlt. unfold board_wf in Hwf.
  destruct (exists_unplaced b ltac:(lia)) as (n & Hn).
  exists (Z.of_nat n). pose proof (lookup_lt_Some _ _ _ Hn).
  split; [apply in_bounds_true; lia|]. now rewrite Nat2Z.id.
Qed.

Lemma count_of_fill (b : Board) (i : Z) (p q : EPiece.t) :
  empty_cell b i -> q <> EPiece.None ->
  count_of q (<[Z.to_nat i := p]> b) =
  ((if EPiece.eqb q p then 1 else 0) + count_of q b)%nat.
Proof.
  intros [_ Hi] Hq. unfold count_of.
  pose proof (count_piece_insert (EPiece.eqb q) b (Z.to_nat i) _ p Hi) as H.
  replace (EPiece.eqb q EPiece.None) with false in H
    by (symmetry; now apply EPiece_eqb_neq).
  revert H. destruct (EPiece.eqb q p); lia.
Qed.

Lemma no_line_empty_board : no_line empty_board.
Proof.
  intros e He (a & d & _ & Hrun).
  destruct (Hrun 0 ltac:(unfold piecesToWin; lia)) as [Hg Hc].
  apply in_grid_index in Hg. apply in_bounds_true in Hg.
  unfold board_size, boardWidth in Hg.
  unfold empty_board in Hc. apply lookup_replicate in Hc as [Hc _].
  congruence.
Qed.

Lemma turn_pieces (s : Loop.t) :
  game_ok s ->
  App.currentTurn (Loop.members s) = EPiece.Cross \/
  App.currentTurn (Loop.members s) = EPiece.Cricle.
Proof. intros (_ & _ & [[H _]|[H _]] & _); auto. Qed.


Lemma game_ok_reset (fut : option (Board * EPiece.t)) (msg : string) :
  game_ok (Loop.Mk (App.Mk empty_board 0 EPiece.Cross fut false
                      Datatypes.None) msg).
Proof.
  unfold game_ok. cbn.
  split; [reflexivity|]. split; [reflexivity|].
  split; [left; split; reflexivity|].
  split; [exact no_line_empty_board|].
  split; [reflexivity|discriminate].
Qed.

(** A running game has no winner yet. *)
Lemma running_facts (s : Loop.t) :
  game_ok s -> App.bGameEnded (Loop.members s) = false ->
  App.winningMove (Loop.members s) = Datatypes.None /\
  no_line (App.board (Loop.members s)) /\
  App.placedPieces (Loop.members s) < board_size /\
  (App.currentTurn (Loop.members s) = computerPiece ->
   App.aiNextmMove (Loop.members s) =
   Some (App.board (Loop.members s), computerPiece)).
Proof.
  intros (_ & _ & _ & Hw) Hrun.
  destruct (App.winningMove (Loop.members s)) as [wm|].
  - destruct Hw as (Hend & _). congruence.
  - rewrite Hrun in Hw. destruct Hw as (Hno & Hlt & Hfut). auto.
Qed.

Lemma frame_end_running (s : Loop.t) :
  game_ok s -> App.bGameEnded (Loop.members s) = false ->
  frame_end s = s.
Proof.
  intros Hok Hrun.
  destruct (running_facts s Hok Hrun) as (Hw & _ & Hlt & _).
  unfold frame_end. rewrite Hw.
  destruct (Z.geb_spec (App.placedPieces (Loop.members s))
              (boardWidth * boardWidth)) as [Hge|_]; [|reflexivity].
  unfold board_size in Hlt. lia.
Qed.

(** The state after a placement and the end of its frame. *)
Lemma game_ok_placed (s : Loop.t) (i : Z) (w : option WinningMove)
    (fut : option (Board * EPiece.t)) :
  game_ok s -> App.bGameEnded (Loop.members s) = false ->
  empty_cell (App.board (Loop.members s)) i ->
  let t := App.currentTurn (Loop.members s) in
  let b' := <[Z.to_nat i := t]> (App.board (Loop.members s)) in
  CheckWin b' i = Ok w ->
  (t = EPiece.Cross -> fut = Some (b', computerPiece)) ->
  game_ok
    (frame_end
       (Loop.Mk
          (App.Mk b' (int_add (App.placedPieces (Loop.members s)) 1)
             (App.other_turn t) fut false w)
          (Loop.endMessage s))).
Proof.
  intros Hok Hrun He t b' Hw Hfut.
  destruct (running_facts s Hok Hrun) as (_ & Hno & Hlt & _).
  pose proof (turn_pieces s Hok) as Ht. fold t in Ht.
  destruct Hok as (Hwf & Hcount & Hpar & _). fold t in Hpar.
  assert (Htn : t <> EPiece.None) by (destruct Ht as [-> | ->]; discriminate).
  assert (Hwf' : board_wf b') by now apply board_wf_insert.
  assert (Hcount' : Z.of_nat (count_placed b') =
                    int_add (App.placedPieces (Loop.members s)) 1).
  { unfold b'. rewrite (count_placed_fill _ _ _ He Htn).
    unfold board_size, boardWidth in Hlt.
    rewrite int_add_small; unfold int_range, int_half; lia. }
  assert (Hpar' :
    (App.other_turn t = EPiece.Cross /\
     count_of EPiece.Cross b' = count_of EPiece.Cricle b') \/
    (App.other_turn t = EPiece.Cricle /\
     count_of EPiece.Cross b' = S (count_of EPiece.Cricle b'))).
  { unfold b'.
    rewrite !(count_of_fill _ _ _ _ He) by discriminate.
    destruct Hpar as [[Hc Heq]|[Hc Heq]]; rewrite Hc; cbn; [right|left];
      (split; [reflexivity|lia]). }
  assert (Hpp : int_add (App.placedPieces (Loop.members s)) 1 =
                App.placedPieces (Loop.members s) + 1).
  { unfold board_size, boardWidth in Hlt.
    pose proof (Zle_0_nat (count_placed (App.board (Loop.members s)))).
    rewrite int_add_small; unfold int_range, int_half; lia. }
  subst b'.
  destruct (placed_check _ i t Hwf Hno He Htn)
    as [[Hnone Hno']|(d & Hd & Hsome & Hon)].
  - rewrite Hnone in Hw. injection Hw as <-.
    unfold frame_end. cbn [Loop.members App.winningMove App.placedPieces].
    destruct (Z.geb_spec
                (int_add (App.placedPieces (Loop.members s)) 1)
                (boardWidth * boardWidth)) as [Hge|Hlt'].
    + unfold game_ok. cbn.
      refine (conj Hwf' (conj Hcount' (conj Hpar' (conj Hno' _)))).
      split; [|reflexivity]. unfold board_size in *. lia.
    + unfold game_ok. cbn.
      refine (conj Hwf' (conj Hcount' (conj Hpar' (conj Hno' _)))).
      split; [unfold board_size; lia|].
      intros Hc. apply Hfut.
      destruct Ht as [H | H]; [assumption|].
      rewrite H in Hc. discriminate.
  - rewrite Hsome in Hw. injection Hw as <-.
    unfold frame_end. cbn [Loop.members App.winningMove piece].
    unfold game_ok. cbn.
    refine (conj Hwf' (conj Hcount' (conj Hpar' _))).
    split; [reflexivity|].
    split; [destruct Ht as [-> | ->]; reflexivity|].
    split; [assumption|].
    split; [exists i; split; [apply He|assumption]|].
    destruct Ht as [-> | ->]; reflexivity.
Qed.

(** What the turn of a running frame does: nothing, or one placement of
    the mover's piece on an Empty cell. *)
Lemma turn_cases (inp : Loop.input) (s : Loop.t) :
  game_ok s -> App.bGameEnded (Loop.members s) = false ->
  let a := Loop.members s in
  let t := App.currentTurn a in
  (turn_action inp a = (Ok tt, a) \/
   turn_action inp a = (Raise out_of_range, a) /\
   t = playerPiece /\ Loop.pressed inp = true /\
   in_bounds (WindowPosToBoardIdx (Loop.mouse inp)) = false) \/
  (exists i w fut,
     empty_cell (App.board a) i /\
     CheckWin (<[Z.to_nat i := t]> (App.board a)) i = Ok w /\
     (t = EPiece.Cross ->
      fut = Some (<[Z.to_nat i := t]> (App.board a), computerPiece)) /\
     (t = computerPiece ->
      Loop.thinkElapsed inp = true /\ Loop.ready inp = true /\
      FindBestMove (App.board a) computerPiece = Ok i) /\
     (t = playerPiece ->
      Loop.pressed inp = true /\
      i = WindowPosToBoardIdx (Loop.mouse inp)) /\
     turn_action inp a =
     (Ok tt,
      App.Mk (<[Z.to_nat i := t]> (App.board a))
        (int_add (App.placedPieces a) 1) (App.other_turn t) fut false w)).
Proof.
  intros Hok Hrun a t.
  destruct (running_facts s Hok Hrun) as (_ & _ & Hlt & Hfut).
  pose proof Hok as (Hwf & Hcount & _). fold a in Hwf, Hcount, Hlt, Hfut, Hrun.
  unfold turn_action. fold t.
  destruct (turn_pieces s Hok) as [Ht | Ht]; fold a t in Ht; rewrite Ht.
  - (* the player *)
    cbn [useAi EPiece.eqb computerPiece playerStart andb].
    destruct (Loop.pressed inp) eqn:Hp; [|left; left; reflexivity].
    set (i := WindowPosToBoardIdx (Loop.mouse inp)).
    destruct (HandlePlayerTurn_outcomes a i Hwf) as (Hout & Hocc & _).
    destruct (in_bounds i) eqn:Hi.
    + destruct (at_in_bounds _ i Hwf Hi) as (c & _ & Hc).
      destruct (EPiece_eqb_spec c EPiece.None) as [->|Hne].
      * right. assert (He : empty_cell (App.board a) i) by (split; assumption).
        destruct (CheckWin_total
                    (<[Z.to_nat i := EPiece.Cross]> (App.board a)) i
                    (board_wf_insert _ _ _ Hwf) Hi) as (w & Hw).
        exists i, w,
          (Some (<[Z.to_nat i := EPiece.Cross]> (App.board a), computerPiece)).
        split; [assumption|]. split; [assumption|].
        split; [reflexivity|]. split; [discriminate|].
        split; [split; reflexivity|].
        pose proof (HandlePlayerTurn_places a i w He) as H.
        fold t in H. rewrite Ht, Hrun in H. apply H. assumption.
      * left; left. apply Hocc; [reflexivity|].
        intros [_ He]. congruence.
    + left; right. split; [now apply Hout|]. auto.
  - (* the computer *)
    cbn [useAi EPiece.eqb computerPiece playerStart andb].
    specialize (Hfut Ht).
    destruct (Loop.thinkElapsed inp && Loop.ready inp) eqn:Hgo.
    2:{ left; left. now apply (HandleAiTurn_waits a _ _ _ Hfut). }
    apply andb_true_iff in Hgo as [-> ->].
    destruct (exists_empty_cell _ Hwf ltac:(lia)) as (j & Hj).
    destruct (FindBestMove_spec (App.board a) computerPiece Hwf)
      as (acc & Hres & Hbest).
    destruct Hbest as [(Hnone & _)|(_ & Hem & _)].
    { exfalso. exact (Hnone j (empty_cell_range _ j Hj) Hj). }
    destruct (CheckWin_total
                (<[Z.to_nat (snd acc) := EPiece.Cricle]> (App.board a))
                (snd acc) (board_wf_insert _ _ _ Hwf) (proj1 Hem))
      as (w & Hw).
    right. exists (snd acc), w, Datatypes.None.
    split; [assumption|]. split; [assumption|].
    split; [discriminate|]. split; [intros _; auto|].
    split; [discriminate|].
    pose proof (HandleAiTurn_places a _ (snd acc) w Hfut Hres Hem Hw) as H.
    fold t in H. rewrite Ht, Hrun in H. exact H.
Qed.

Lemma game_ok_frame (inp : Loop.input) (s s' : Loop.t) (r : result bool) :
  game_ok s -> Loop.OnUserUpdate inp s = (r, s') -> game_ok s'.
Proof.
  intros Hok Hstep.
  destruct (App.bGameEnded (Loop.members s)) eqn:Hend.
  - destruct (Loop.restartElapsed inp) eqn:Hre.
    + rewrite (OnUserUpdate_restart inp s Hend Hre) in Hstep.
      injection Hstep as _ <-. apply game_ok_reset.
    + rewrite (OnUserUpdate_ended inp s Hend Hre) in Hstep.
      destruct (App.winningMove (Loop.members s)) as [w|].
      * destruct (DrawWinningLine (App.board (Loop.members s)) w);
          injection Hstep as _ <-; assumption.
      * injection Hstep as _ <-. assumption.
  - destruct (turn_cases inp s Hok Hend)
      as [[Hsame|(Hraise & _)]|(i & w & fut & He & Hw & Hfut & _ & _ & Hrun)].
    + rewrite (OnUserUpdate_running inp s _ Hend Hsame) in Hstep.
      injection Hstep as _ <-. rewrite Loop_eta.
      now rewrite frame_end_running.
    + rewrite (OnUserUpdate_running_raise inp s _ _ Hend Hraise) in Hstep.
      injection Hstep as _ <-. now rewrite Loop_eta.
    + rewrite (OnUserUpdate_running inp s _ Hend Hrun) in Hstep.
      injection Hstep as _ <-.
      now apply (game_ok_placed s i w fut Hok Hend He).
Qed.

Lemma playing_ok (s : Loop.t) : playing s -> game_ok s.
Proof.
  induction 1 as [s r Hcreate|s s' inp r _ IH Hstep].
  - injection Hcreate as _ <-. apply game_ok_reset.
  - exact (game_ok_frame inp s s' r IH Hstep).
Qed.

Lemma winner_has_line (b : Board) (i : Z) (wm : WinningMove) :
  board_wf b -> in_bounds i = true -> CheckWin b i = Ok (Some wm) ->
  has_line b (piece wm) /\ b !! Z.to_nat i = Some (piece wm).
Proof.
  intros Hwf Hi Hwin.
  destruct (CheckWin_spec b i Hwf Hi)
    as (e & He & [[Hnone _]|(k & d & Hk & Hsome & Hon & _)]).
  { rewrite Hnone in Hwin. discriminate. }
  rewrite Hsome in Hwin. injection Hwin as <-. cbn [piece].
  assert (Hd : In d families).
  { apply list_elem_of_lookup_2 in Hk. now apply list_elem_of_In. }
  split; [|assumption].
  exists (line_start d (pos_of i)), d. split; [assumption|].
  apply (winning_run_line b e (pos_of i) d Hd Hon).
Qed.

Lemma full_board (b : Board) :
  count_placed b = length b -> forall j, ~ empty_cell b j.
Proof.
  intros Hfull j [_ Hj]. revert Hfull.
  generalize (Z.to_nat j) Hj. clear j Hj. unfold count_placed.
  induction b as [|p b IH]; intros n Hn; [discriminate|].
  pose proof (count_piece_le (fun q => negb (is_None q)) b) as Hle.
  destruct n as [|n]; simpl in *.
  - injection Hn as ->. simpl. lia.
  - destruct (negb (is_None p)); intros H; [|lia].
    apply (IH n Hn). lia.
Qed.


(** ** The games of the examples *)

Lemma playing_played (l : list Loop.input) : playing (played l).
Proof.
  unfold played.
  assert (Hstart : playing (snd (Loop.OnUserCreate Loop.initial))).
  { apply (playing_create _ (fst (Loop.OnUserCreate Loop.initial))).
    apply surjective_pairing. }
  revert Hstart. generalize (snd (Loop.OnUserCreate Loop.initial)).
  induction l as [|inp l IH]; intros s Hs; [exact Hs|].
  cbn [fold_left]. apply IH.
  apply (playing_frame s _ inp (fst (Loop.OnUserUpdate inp s)) Hs).
  apply surjective_pairing.
Qed.

Lemma won_game_result :
  App.bGameEnded (Loop.members won_game) = true /\
  App.winningMove (Loop.members won_game) =
  Some (MkWinningMove EPiece.Cricle (olc.Vi2d 2 0) (olc.Vi2d (-1) 1)).
Proof.
  vm_cast_no_check
    (conj (eq_refl true)
       (eq_refl (Some (MkWinningMove EPiece.Cricle (olc.Vi2d 2 0)
                         (olc.Vi2d (-1) 1))))).
Qed.

Lemma first_click_state :
  App.bGameEnded (Loop.members first_click) = false /\
  App.currentTurn (Loop.members first_click) = computerPiece.
Proof. split; reflexivity. Qed.

(** ** Properties of a run *)

(** X4.  In every state of a run the pieces alternate, crosses first:
    with a cross to move there are as many crosses as circles, with a
    circle to move one cross more. *)
Theorem moves_alternate (s : Loop.t) :
  playing s ->
  let a := Loop.members s in
  (App.currentTurn a = EPiece.Cross /\
   count_of EPiece.Cross (App.board a) =
   count_of EPiece.Cricle (App.board a)) \/
  (App.currentTurn a = EPiece.Cricle /\
   count_of EPiece.Cross (App.board a) =
   S (count_of EPiece.Cricle (App.board a))).
Proof. intros Hs. apply (playing_ok s Hs). Qed.

Lemma moves_alternate_witness :
  let a := Loop.members first_click in
  (App.currentTurn a = EPiece.Cross /\
   count_of EPiece.Cross (App.board a) =
   count_of EPiece.Cricle (App.board a)) \/
  (App.currentTurn a = EPiece.Cricle /\
   count_of EPiece.Cross (App.board a) =
   S (count_of EPiece.Cricle (App.board a))).
Proof.
  apply (moves_alternate first_click). apply playing_played.
Defined.

(** X5.  In every state of a run: while the game is running no player
    has a line and a cell is Empty; a stored winning move means that the
    game has ended and that the board holds a line of the last mover; a
    game that ended without a winning move is a full board without a
    line. *)
Theorem game_ends_on_first_line (s : Loop.t) :
  playing s ->
  let a := Loop.members s in
  (App.bGameEnded a = false ->
   App.winningMove a = Datatypes.None /\ no_line (App.board a) /\
   exists j, empty_cell (App.board a) j) /\
  (forall wm, App.winningMove a = Some wm ->
     App.bGameEnded a = true /\ has_line (App.board a) (piece wm) /\
     piece wm = App.other_turn (App.currentTurn a)) /\
  (App.bGameEnded a = true -> App.winningMove a = Datatypes.None ->
   no_line (App.board a) /\ forall j, ~ empty_cell (App.board a) j).
Proof.
  intros Hs a. pose proof (playing_ok s Hs) as Hok.
  pose proof Hok as (Hwf & Hcount & _ & Hw). fold a in Hwf, Hcount, Hw.
  split; [|split].
  - intros Hrun. destruct (running_facts s Hok Hrun) as (Hn & Hno & Hlt & _).
    fold a in Hn, Hno, Hlt.
    refine (conj Hn (conj Hno _)).
    apply exists_empty_cell; [assumption|lia].
  - intros wm Hwm. rewrite Hwm in Hw.
    destruct Hw as (Hend & Hp & _ & (i & Hi & Hwin) & _).
    refine (conj Hend (conj _ Hp)).
    apply (winner_has_line _ i wm Hwf Hi Hwin).
  - intros Hend Hn. rewrite Hn, Hend in Hw. destruct Hw as (Hno & Hfull & _).
    split; [assumption|]. apply full_board.
    unfold board_wf in Hwf. lia.
Qed.

Lemma game_ends_on_first_line_witness :
  let a := Loop.members won_game in
  (App.bGameEnded a = false ->
   App.winningMove a = Datatypes.None /\ no_line (App.board a) /\
   exists j, empty_cell (App.board a) j) /\
  (forall wm, App.winningMove a = Some wm ->
     App.bGameEnded a = true /\ has_line (App.board a) (piece wm) /\
     piece wm = App.other_turn (App.currentTurn a)) /\
  (App.bGameEnded a = true -> App.winningMove a = Datatypes.None ->
   no_line (App.board a) /\ forall j, ~ empty_cell (App.board a) j).
Proof.
  apply (game_ends_on_first_line won_game). apply playing_played.
Defined.

(** X6.  When a game has ended, [endMessage] names the result: the
    computer's message for a line of the computer, the crosses' message
    for a line of the player, and the draw message when there is no
    winner.  The circles' message is never shown. *)
Theorem end_message_names_result (s : Loop.t) :
  playing s -> App.bGameEnded (Loop.members s) = true ->
  match App.winningMove (Loop.members s) with
  | Some wm =>
      (piece wm = computerPiece /\
       Loop.endMessage s = "Computer won!"%string) \/
      (piece wm = playerPiece /\
       Loop.endMessage s = "Crosses win!"%string)
  | Datatypes.None => Loop.endMessage s = "It's a draw :/"%string
  end.
Proof.
  intros Hs Hend. pose proof (playing_ok s Hs) as Hok.
  pose proof (turn_pieces s Hok) as Ht.
  destruct Hok as (_ & _ & _ & Hw).
  destruct (App.winningMove (Loop.members s)) as [wm|].
  - destruct Hw as (_ & Hp & _ & _ & Hmsg). rewrite Hmsg, Hp.
    destruct Ht as [-> | ->]; [left|right]; split; reflexivity.
  - rewrite Hend in Hw. apply Hw.
Qed.

Lemma end_message_names_result_witness :
  match App.winningMove (Loop.members won_game) with
  | Some wm =>
      (piece wm = computerPiece /\
       Loop.endMessage won_game = "Computer won!"%string) \/
      (piece wm = playerPiece /\
       Loop.endMessage won_game = "Crosses win!"%string)
  | Datatypes.None => Loop.endMessage won_game = "It's a draw :/"%string
  end.
Proof.
  apply (end_message_names_result won_game).
  - apply playing_played.
  - exact (proj1 won_game_result).
Defined.



(** X8.  A frame leaves the board as it is, clears it in the restart of
    an ended game, or puts the mover's piece on one Empty cell of a running
    game: the clicked cell on the player's turn, the cell chosen by
    [FindBestMove] for the live board on the computer's turn. *)
Theorem frame_changes_one_cell (s s' : Loop.t) (inp : Loop.input)
    (r : result bool) :
  playing s -> Loop.OnUserUpdate inp s = (r, s') ->
  let a := Loop.members s in
  let b := App.board a in
  let b' := App.board (Loop.members s') in
  b' = b \/
  (App.bGameEnded a = true /\ Loop.restartElapsed inp = true /\
   b' = empty_board) \/
  (App.bGameEnded a = false /\
   exists i, empty_cell b i /\
             b' = <[Z.to_nat i := App.currentTurn a]> b /\
             (App.currentTurn a = playerPiece ->
              Loop.pressed inp = true /\
              i = WindowPosToBoardIdx (Loop.mouse inp)) /\
             (App.currentTurn a = computerPiece ->
              Loop.thinkElapsed inp = true /\ Loop.ready inp = true /\
              FindBestMove b computerPiece = Ok i)).
Proof.
  intros Hs Hstep a b b'. pose proof (playing_ok s Hs) as Hok.
  destruct (App.bGameEnded (Loop.members s)) eqn:Hend; fold a in Hend.
  - destruct (Loop.restartElapsed inp) eqn:Hre.
    + rewrite (OnUserUpdate_restart inp s Hend Hre) in Hstep.
      injection Hstep as _ <-. right; left.
      split; [exact Hend|]. split; reflexivity.
    + rewrite (OnUserUpdate_ended inp s Hend Hre) in Hstep.
      left. subst b'.
      destruct (App.winningMove (Loop.members s)) as [w|].
      * destruct (DrawWinningLine (App.board (Loop.members s)) w);
          injection Hstep as _ <-; reflexivity.
      * injection Hstep as _ <-. reflexivity.
  - destruct (turn_cases inp s Hok Hend)
      as [[Hsame|(Hraise & _)]
         |(i & w & fut & He & Hw & _ & Hai & Hpl & Hrun)].
    + rewrite (OnUserUpdate_running inp s _ Hend Hsame) in Hstep.
      injection Hstep as _ <-. left. subst b'.
      rewrite Loop_eta, frame_end_running by assumption. reflexivity.
    + rewrite (OnUserUpdate_running_raise inp s _ _ Hend Hraise) in Hstep.
      injection Hstep as _ <-. left. reflexivity.
    + rewrite (OnUserUpdate_running inp s _ Hend Hrun) in Hstep.
      injection Hstep as _ <-. right; right. split; [exact Hend|].
      exists i. split; [assumption|]. split; [|split; assumption].
      subst b'. unfold frame_end.
      cbn [Loop.members App.winningMove App.placedPieces].
      destruct w; [reflexivity|].
      destruct (_ >=? _); reflexivity.
Qed.

Lemma frame_changes_one_cell_witness :
  let s' := snd (Loop.OnUserUpdate think first_click) in
  let a := Loop.members first_click in
  let b := App.board a in
  let b' := App.board (Loop.members s') in
  b' = b \/
  (App.bGameEnded a = true /\ Loop.restartElapsed think = true /\
   b' = empty_board) \/
  (App.bGameEnded a = false /\
   exists i, empty_cell b i /\
             b' = <[Z.to_nat i := App.currentTurn a]> b /\
             (App.currentTurn a = playerPiece ->
              Loop.pressed think = true /\
              i = WindowPosToBoardIdx (Loop.mouse think)) /\
             (App.currentTurn a = computerPiece ->
              Loop.thinkElapsed think = true /\ Loop.ready think = true /\
              FindBestMove b computerPiece = Ok i)).
Proof.
  apply (frame_changes_one_cell first_click
           (snd (Loop.OnUserUpdate think first_click)) think
           (fst (Loop.OnUserUpdate think first_click))).
  - apply playing_played.
  - apply surjective_pairing.
Defined.

(** X9.  On the computer's turn the pending search was started on the
    live board, and once its result is taken the computer's piece is on the
    cell [FindBestMove] chooses for that board, an Empty one, and the turn
    is the player's. *)
Theorem computer_plays_best_move (s : Loop.t) (inp : Loop.input) :
  playing s ->
  App.bGameEnded (Loop.members s) = false ->
  App.currentTurn (Loop.members s) = computerPiece ->
  Loop.thinkElapsed inp = true -> Loop.ready inp = true ->
  let b := App.board (Loop.members s) in
  App.aiNextmMove (Loop.members s) = Some (b, computerPiece) /\
  exists m s',
    FindBestMove b computerPiece = Ok m /\ empty_cell b m /\
    Loop.OnUserUpdate inp s = (Ok true, s') /\
    App.board (Loop.members s') = <[Z.to_nat m := computerPiece]> b /\
    App.currentTurn (Loop.members s') = playerPiece.
Proof.
  intros Hs Hend Ht Hte Hrd b. pose proof (playing_ok s Hs) as Hok.
  destruct (running_facts s Hok Hend) as (_ & _ & Hlt & Hfut).
  specialize (Hfut Ht). split; [exact Hfut|].
  pose proof Hok as (Hwf & Hcount & _).
  destruct (exists_empty_cell _ Hwf ltac:(lia)) as (j & Hj).
  destruct (FindBestMove_spec b computerPiece Hwf) as (acc & Hres & Hbest).
  destruct Hbest as [(Hnone & _)|(_ & Hem & _)].
  { exfalso. exact (Hnone j (empty_cell_range _ j Hj) Hj). }
  destruct (CheckWin_total (<[Z.to_nat (snd acc) := computerPiece]> b)
              (snd acc) (board_wf_insert _ _ _ Hwf) (proj1 Hem))
    as (w & Hw).
  pose proof (HandleAiTurn_places _ _ (snd acc) w Hfut Hres Hem Hw) as Hrun.
  assert (Hturn : turn_action inp (Loop.members s) =
                  App.HandleAiTurn true true (Loop.members s)).
  { unfold turn_action. now rewrite Ht, Hte, Hrd. }
  rewrite <- Hturn in Hrun.
  exists (snd acc). eexists.
  split; [exact Hres|]. split; [exact Hem|].
  split; [exact (OnUserUpdate_running inp s _ Hend Hrun)|].
  unfold frame_end. cbn [Loop.members App.winningMove App.placedPieces].
  rewrite Ht.
  destruct w; [split; reflexivity|].
  destruct (_ >=? _); split; reflexivity.
Qed.

Lemma computer_plays_best_move_witness :
  let b := App.board (Loop.members first_click) in
  App.aiNextmMove (Loop.members first_click) = Some (b, computerPiece) /\
  exists m s',
    FindBestMove b computerPiece = Ok m /\ empty_cell b m /\
    Loop.OnUserUpdate think first_click = (Ok true, s') /\
    App.board (Loop.members s') = <[Z.to_nat m := computerPiece]> b /\
    App.currentTurn (Loop.members s') = playerPiece.
Proof.
  apply (computer_plays_best_move first_click think).
  - apply playing_played.
  - exact (proj1 first_click_state).
  - exact (proj2 first_click_state).
  - reflexivity.
  - reflexivity.
Defined.

(** ** The local check and the best move *)

(** X10.  After a piece is put on an Empty cell of a board without a line,
    [CheckWin] for that cell alone decides for the whole board: it returns
    no winner exactly when the new board has no line, and a winner it
    returns is the piece just placed, with a line on the board. *)
Theorem CheckWin_decides_board (b : Board) (i : Z) (p : EPiece.t) :
  board_wf b -> no_line b -> empty_cell b i -> p <> EPiece.None ->
  let b' := <[Z.to_nat i := p]> b in
  exists w,
    CheckWin b' i = Ok w /\
    (w = Datatypes.None <-> no_line b') /\
    (forall wm, w = Some wm ->
       piece wm = p /\ position wm = pos_of i /\ has_line b' p).
Proof.
  intros Hwf Hno He Hp b'.
  assert (Hwf' : board_wf b') by now apply board_wf_insert.
  destruct (placed_check b i p Hwf Hno He Hp)
    as [[Hnone Hno']|(d & Hd & Hsome & Hon)]; fold b' in Hnone, Hno' || fold b' in Hsome, Hon.
  - exists Datatypes.None. split; [assumption|]. split; [tauto|].
    intros wm Hwm. discriminate.
  - eexists. split; [exact Hsome|].
    destruct (winner_has_line b' i _ Hwf' (proj1 He) Hsome) as [Hline _].
    cbn [piece] in Hline. split.
    + split; [discriminate|]. intros Hno'. exfalso. exact (Hno' p Hp Hline).
    + intros wm [= <-]. auto.
Qed.

Lemma CheckWin_decides_board_witness :
  let b' := <[Z.to_nat 0 := EPiece.Cross]> empty_board in
  exists w,
    CheckWin b' 0 = Ok w /\
    (w = Datatypes.None <-> no_line b') /\
    (forall wm, w = Some wm ->
       piece wm = EPiece.Cross /\ position wm = pos_of 0 /\
       has_line b' EPiece.Cross).
Proof.
  apply (CheckWin_decides_board empty_board 0 EPiece.Cross).
  - reflexivity.
  - exact no_line_empty_board.
  - split; reflexivity.
  - discriminate.
Defined.

Lemma score_of_win (b : Board) (i : Z) (wm : WinningMove) :
  board_wf b -> empty_cell b i ->
  CheckWin (<[Z.to_nat i := computerPiece]> b) i = Ok (Some wm) ->
  score b computerPiece i = Ok 1.
Proof.
  intros Hwf [Hi Hc] Hwin.
  assert (Hwf' : board_wf (<[Z.to_nat i := computerPiece]> b))
    by now apply board_wf_insert.
  destruct (winner_has_line _ i wm Hwf' Hi Hwin) as [_ Hp].
  rewrite list_lookup_insert_eq in Hp by now apply lookup_lt_Some in Hc.
  injection Hp as Hp.
  unfold score, MiniMax, search_fuel. cbn [MiniMax_rec].
  rewrite (bind_Ok _ _ _ _ (Some wm)) by (unfold read; now rewrite Hwin).
  now rewrite <- Hp.
Qed.

(** X11.  When the computer can complete a line with one move,
    [FindBestMove] returns a move of score 1. *)
Theorem FindBestMove_keeps_win (b : Board) (i : Z) (wm : WinningMove) :
  board_wf b -> empty_cell b i ->
  CheckWin (<[Z.to_nat i := computerPiece]> b) i = Ok (Some wm) ->
  exists m,
    FindBestMove b computerPiece = Ok m /\ empty_cell b m /\
    score b computerPiece m = Ok 1.
Proof.
  intros Hwf He Hwin.
  pose proof (score_of_win b i wm Hwf He Hwin) as Hs.
  destruct (FindBestMove_spec b computerPiece Hwf) as (acc & Hres & Hbest).
  destruct Hbest as [(Hnone & _)|(_ & Hem & Hsm & Hr & Hmax & _)].
  { exfalso. exact (Hnone i (empty_cell_range _ i He) He). }
  exists (snd acc). split; [assumption|]. split; [assumption|].
  destruct (Hmax i (empty_cell_range _ i He) He) as (vi & Hvi & Hle).
  rewrite Hs in Hvi. injection Hvi as <-.
  rewrite Hsm. f_equal. lia.
Qed.

Lemma FindBestMove_keeps_win_witness :
  exists m,
    FindBestMove open_win computerPiece = Ok m /\ empty_cell open_win m /\
    score open_win computerPiece m = Ok 1.
Proof.
  apply (FindBestMove_keeps_win open_win 2
           (MkWinningMove EPiece.Cricle (olc.Vi2d 0 2) (olc.Vi2d 0 (-1)))).
  - reflexivity.
  - split; reflexivity.
  - reflexivity.
Defined.

(** ** The computer never loses *)

Lemma safe_empty_board : safe 5 empty_board = true.
Proof. vm_cast_no_check (eq_refl true). Qed.

(** One move of the player from a safe board. *)
Lemma safe_player_move (n : nat) (b : Board) (i : Z)
    (w : option WinningMove) :
  safe n b = true -> empty_cell b i ->
  CheckWin (<[Z.to_nat i := playerPiece]> b) i = Ok w ->
  w = Datatypes.None /\
  (Z.of_nat (count_placed (<[Z.to_nat i := playerPiece]> b)) >= board_size \/
   exists n', reply_safe (safe n') (<[Z.to_nat i := playerPiece]> b) = true).
Proof.
  intros Hsafe [Hi Hc] Hw. destruct n as [|n']; [discriminate|].
  cbn [safe] in Hsafe. rewrite forallb_forall in Hsafe.
  specialize (Hsafe i). cbv beta zeta in Hsafe.
  assert (Hat : at_ b i = Ok EPiece.None) by (unfold at_; now rewrite Hi, Hc).
  rewrite Hat, Hw in Hsafe.
  assert (Hin : In i (seqZ 0 board_size)).
  { apply list_elem_of_In, elem_of_seqZ. apply in_bounds_true in Hi. lia. }
  specialize (Hsafe Hin).
  destruct w as [wm|]; [discriminate|]. split; [reflexivity|].
  apply orb_true_iff in Hsafe as [Hfull|Hreply].
  - left. apply Z.geb_le in Hfull. lia.
  - right. eauto.
Qed.

(** The reply of the computer from a board with a safe reply. *)
Lemma safe_computer_move (k : Board -> bool) (b : Board) (m : Z)
    (w : option WinningMove) :
  reply_safe k b = true -> FindBestMove b computerPiece = Ok m ->
  CheckWin (<[Z.to_nat m := computerPiece]> b) m = Ok w ->
  w = Datatypes.None -> k (<[Z.to_nat m := computerPiece]> b) = true.
Proof.
  unfold reply_safe. intros Hsafe Hm Hw ->.
  rewrite Hm in Hsafe. cbv zeta in Hsafe. now rewrite Hw in Hsafe.
Qed.

Lemma frame_end_members (s : Loop.t) :
  App.board (Loop.members (frame_end s)) = App.board (Loop.members s) /\
  App.currentTurn (Loop.members (frame_end s)) =
  App.currentTurn (Loop.members s) /\
  App.winningMove (Loop.members (frame_end s)) =
  App.winningMove (Loop.members s) /\
  App.placedPieces (Loop.members (frame_end s)) =
  App.placedPieces (Loop.members s) /\
  (App.bGameEnded (Loop.members (frame_end s)) = false ->
   App.placedPieces (Loop.members s) < board_size).
Proof.
  unfold frame_end.
  destruct (App.winningMove (Loop.members s)) as [w|] eqn:Hw.
  - cbn. repeat split; try assumption. discriminate.
  - destruct (Z.geb_spec (App.placedPieces (Loop.members s))
                (boardWidth * boardWidth)) as [Hge|Hlt].
    + cbn. repeat split; try assumption. discriminate.
    + repeat split; try assumption. intros _. exact Hlt.
Qed.

Lemma unbeaten_frame (inp : Loop.input) (s s' : Loop.t) (r : result bool) :
  game_ok s -> unbeaten s -> Loop.OnUserUpdate inp s = (r, s') ->
  unbeaten s'.
Proof.
  intros Hok Hun Hstep.
  pose proof (game_ok_frame inp s s' r Hok Hstep) as Hok'.
  destruct (App.bGameEnded (Loop.members s)) eqn:Hend.
  - destruct (Loop.restartElapsed inp) eqn:Hre.
    + rewrite (OnUserUpdate_restart inp s Hend Hre) in Hstep.
      injection Hstep as _ <-. split; [discriminate|].
      intros _. split; [|discriminate].
      intros _. exists 5%nat. exact safe_empty_board.
    + rewrite (OnUserUpdate_ended inp s Hend Hre) in Hstep.
      destruct (App.winningMove (Loop.members s)) as [w|] eqn:Hw.
      * destruct (DrawWinningLine (App.board (Loop.members s)) w);
          injection Hstep as _ <-; assumption.
      * injection Hstep as _ <-. assumption.
  - destruct (turn_cases inp s Hok Hend)
      as [[Hsame|(Hraise & _)]
         |(i & w & fut & He & Hw & _ & Hai & Hpl & Hrun)].
    + rewrite (OnUserUpdate_running inp s _ Hend Hsame) in Hstep.
      injection Hstep as _ <-. rewrite Loop_eta.
      now rewrite frame_end_running.
    + rewrite (OnUserUpdate_running_raise inp s _ _ Hend Hraise) in Hstep.
      injection Hstep as _ <-. now rewrite Loop_eta.
    + rewrite (OnUserUpdate_running inp s _ Hend Hrun) in Hstep.
      injection Hstep as _ Hs'.
      destruct (proj2 Hun Hend) as [Hplayer Hcomputer].
      set (t := App.currentTurn (Loop.members s)) in *.
      set (b := App.board (Loop.members s)) in *.
      destruct (frame_end_members
                  (Loop.Mk (App.Mk (<[Z.to_nat i := t]> b)
                              (int_add (App.placedPieces (Loop.members s)) 1)
                              (App.other_turn t) fut false w)
                     (Loop.endMessage s)))
        as (Hb & Hturn & Hwm & Hpp & Hlt).
      rewrite Hs' in Hb, Hturn, Hwm, Hpp, Hlt.
      cbn [Loop.members App.board App.currentTurn App.winningMove
           App.placedPieces] in Hb, Hturn, Hwm, Hpp, Hlt.
      pose proof Hok' as (_ & Hcount' & _ & Hwin').
      rewrite Hb, Hpp in Hcount'. rewrite Hwm in Hwin'.
      destruct (turn_pieces s Hok) as [Ht | Ht]; fold t in Ht.
      * (* the player has moved *)
        rewrite Ht in *.
        destruct (Hplayer eq_refl) as (n & Hsafe).
        destruct (safe_player_move n b i w Hsafe He Hw) as (-> & Hnext).
        split; [intros wm Hwm'; rewrite Hwm in Hwm'; discriminate|].
        intros Hend'. rewrite Hturn, Hb. split; [discriminate|].
        intros _. destruct Hnext as [Hfull|Hreply]; [|exact Hreply].
        specialize (Hlt Hend'). change playerPiece with EPiece.Cross in Hfull.
        lia.
      * (* the computer has moved *)
        rewrite Ht in *.
        destruct (Hcomputer eq_refl) as (n & Hsafe).
        destruct (Hai eq_refl) as (_ & _ & Hbest).
        destruct w as [wm0|].
        -- split.
           ++ intros wm Hwm'. rewrite Hwm in Hwm'. injection Hwm' as <-.
              destruct (winner_has_line _ i wm0
                          (board_wf_insert _ _ _ (proj1 Hok))
                          (proj1 He) Hw) as [_ Hp].
              rewrite list_lookup_insert_eq in Hp
                by (destruct He as [_ He]; now apply lookup_lt_Some in He).
              now injection Hp.
           ++ intros Hend'. destruct Hwin' as (Hended & _). congruence.
        -- split; [intros wm Hwm'; rewrite Hwm in Hwm'; discriminate|].
           intros Hend'. rewrite Hturn, Hb. split; [|discriminate].
           intros _. exists n.
           exact (safe_computer_move _ b i _ Hsafe Hbest Hw eq_refl).
Qed.

Lemma playing_unbeaten (s : Loop.t) : playing s -> unbeaten s.
Proof.
  induction 1 as [s r Hcreate|s s' inp r Hs IH Hstep].
  - injection Hcreate as _ <-. split; [discriminate|].
    intros _. split; [|discriminate].
    intros _. exists 5%nat. exact safe_empty_board.
  - exact (unbeaten_frame inp s s' r (playing_ok s Hs) IH Hstep).
Qed.

(** A piece put on an Empty cell completes no line of another piece. *)
Lemma has_line_other (b : Board) (i : Z) (p e : EPiece.t) :
  empty_cell b i -> e <> p ->
  has_line (<[Z.to_nat i := p]> b) e -> has_line b e.
Proof.
  intros [Hi Hc] Hne (a & d & Hd & Hrun).
  exists a, d. split; [assumption|].
  pose proof (proj1 (in_bounds_true i) Hi) as Hi0.
  apply (is_run_unchanged b i p e a d piecesToWin); [lia|assumption|].
  intros j Hj Heq. destruct (Hrun j Hj) as [_ Hcell].
  rewrite Heq in Hcell.
  rewrite list_lookup_insert_eq in Hcell by (now apply lookup_lt_Some in Hc).
  congruence.
Qed.

(** No frame gives the player a line. *)
Lemma player_line_frame (inp : Loop.input) (s s' : Loop.t) (r : result bool) :
  game_ok s -> unbeaten s ->
  ~ has_line (App.board (Loop.members s)) playerPiece ->
  Loop.OnUserUpdate inp s = (r, s') ->
  ~ has_line (App.board (Loop.members s')) playerPiece.
Proof.
  intros Hok Hun Hno Hstep.
  destruct (App.bGameEnded (Loop.members s)) eqn:Hend.
  - destruct (Loop.restartElapsed inp) eqn:Hre.
    + rewrite (OnUserUpdate_restart inp s Hend Hre) in Hstep.
      injection Hstep as _ <-.
      exact (no_line_empty_board playerPiece playerPiece_not_None).
    + rewrite (OnUserUpdate_ended inp s Hend Hre) in Hstep.
      destruct (App.winningMove (Loop.members s)) as [w|].
      * destruct (DrawWinningLine (App.board (Loop.members s)) w);
          injection Hstep as _ <-; assumption.
      * injection Hstep as _ <-. assumption.
  - destruct (turn_cases inp s Hok Hend)
      as [[Hsame|(Hraise & _)]
         |(i & w & fut & He & Hw & _ & _ & _ & Hrun)].
    + rewrite (OnUserUpdate_running inp s _ Hend Hsame) in Hstep.
      injection Hstep as _ <-. rewrite Loop_eta.
      now rewrite frame_end_running.
    + rewrite (OnUserUpdate_running_raise inp s _ _ Hend Hraise) in Hstep.
      injection Hstep as _ <-. now rewrite Loop_eta.
    + rewrite (OnUserUpdate_running inp s _ Hend Hrun) in Hstep.
      injection Hstep as _ <-.
      rewrite (proj1 (frame_end_members _)).
      cbn [Loop.members App.board].
      destruct (running_facts s Hok Hend) as (_ & Hline & _).
      destruct (proj2 Hun Hend) as [Hplayer _].
      destruct (turn_pieces s Hok) as [Ht | Ht]; rewrite Ht in *.
      * (* the player has moved *)
        destruct (Hplayer eq_refl) as (n & Hsafe).
        destruct (safe_player_move n _ i w Hsafe He Hw) as (-> & _).
        destruct (placed_check _ i EPiece.Cross (proj1 Hok) Hline He
                    playerPiece_not_None)
          as [[_ Hno']|(d & _ & Hsome & _)].
        -- exact (Hno' playerPiece playerPiece_not_None).
        -- change playerPiece with EPiece.Cross in Hw.
           rewrite Hsome in Hw. discriminate.
      * (* the computer has moved *)
        intros Hl. apply Hno.
        apply (has_line_other _ i EPiece.Cricle playerPiece He);
          [discriminate|exact Hl].
Qed.

Lemma playing_player_line (s : Loop.t) :
  playing s -> ~ has_line (App.board (Loop.members s)) playerPiece.
Proof.
  induction 1 as [s r Hcreate|s s' inp r Hs IH Hstep].
  - injection Hcreate as _ <-.
    exact (no_line_empty_board playerPiece playerPiece_not_None).
  - exact (player_line_frame inp s s' r (playing_ok s Hs)
             (playing_unbeaten s Hs) IH Hstep).
Qed.

(** X12.  The computer never loses: in no state of a run does the board
    hold a line of the player's piece, and a stored winning move belongs to
    the computer, with the computer's message. *)
Theorem computer_never_loses (s : Loop.t) :
  playing s ->
  ~ has_line (App.board (Loop.members s)) playerPiece /\
  (forall wm, App.winningMove (Loop.members s) = Some wm ->
     piece wm = computerPiece /\
     Loop.endMessage s = "Computer won!"%string).
Proof.
  intros Hs. split; [exact (playing_player_line s Hs)|].
  intros wm Hwm.
  pose proof (proj1 (playing_unbeaten s Hs) wm Hwm) as Hp.
  split; [assumption|].
  pose proof (playing_ok s Hs) as (_ & _ & _ & Hw).
  rewrite Hwm in Hw. destruct Hw as (_ & _ & _ & _ & Hmsg).
  rewrite Hmsg, Hp. reflexivity.
Qed.

(** The game that the computer wins on the rising diagonal: the player's
    crosses on cells 0, 1 and 3 make no line. *)
Lemma computer_never_loses_witness :
  playing won_game /\
  App.winningMove (Loop.members won_game) =
  Some (MkWinningMove EPiece.Cricle (olc.Vi2d 2 0) (olc.Vi2d (-1) 1)) /\
  ~ has_line (App.board (Loop.members won_game)) playerPiece /\
  Loop.endMessage won_game = "Computer won!"%string.
Proof.
  split; [apply playing_played|].
  split; [exact (proj2 won_game_result)|].
  destruct (computer_never_loses won_game (playing_played _)) as (Hno & Hwm).
  split; [exact Hno|].
  exact (proj2 (Hwm _ (proj2 won_game_result))).
Defined.

(** ** The score of [MiniMax] *)

Lemma MiniMax_rec_depth :
  forall (f : nat) (depth depth' placed : Z) (isMax : bool) (b b' : Board)
         (v : Z),
    MiniMax_rec f depth placed isMax b = (Ok v, b') ->
    MiniMax_rec f depth' placed isMax b = (Ok v, b').
Proof.
  induction f as [|f IH]; intros depth depth' placed isMax b b' v Hrun;
    [discriminate|].
  cbn [MiniMax_rec] in *.
  apply bind_Ok_inv in Hrun as (w & s1 & Hw & Hrun).
  rewrite (bind_Ok _ _ _ _ _ Hw).
  destruct w as [wm|]; [exact Hrun|].
  apply bind_Ok_inv in Hrun as (h & s2 & Hh & Hrun).
  rewrite (bind_Ok _ _ _ _ _ Hh).
  destruct (negb h); [exact Hrun|].
  destruct isMax.
  - revert Hrun. apply for_loop_mono. intros i a s r s'.
    apply try_cell_mono. intros s0 v0 s0'. apply IH.
  - revert Hrun. apply for_loop_mono. intros i a s r s'.
    apply try_cell_mono. intros s0 v0 s0'. apply IH.
Qed.

(** X13.  On a cell of the board [MiniMax] returns -1, 0 or 1, never one
    of the initial bounds, and the [depth] it is given has no influence on
    the score. *)
Theorem MiniMax_score (b : Board) (depth depth' placed : Z) (isMax : bool) :
  board_wf b -> in_bounds placed = true ->
  exists v,
    MiniMax depth placed isMax b = (Ok v, b) /\
    (v = -1 \/ v = 0 \/ v = 1) /\
    MiniMax depth' placed isMax b = (Ok v, b).
Proof.
  intros Hwf Hb.
  destruct (MiniMax_total b depth placed isMax Hwf Hb) as (v & Hv & Hr).
  exists v. split; [exact Hv|]. split; [lia|].
  exact (MiniMax_rec_depth _ _ _ _ _ _ _ _ Hv).
Qed.

Lemma MiniMax_score_witness :
  exists v,
    MiniMax 0 8 false last_cell_board = (Ok v, last_cell_board) /\
    (v = -1 \/ v = 0 \/ v = 1) /\
    MiniMax 7 8 false last_cell_board = (Ok v, last_cell_board).
Proof.
  apply (MiniMax_score last_cell_board 0 7 8 false); reflexivity.
Defined.
